(** * Camlistore: directory reader (pkg/schema/dirreader.go) and
      HTTP basic-auth gate (lib/go/camli/auth/auth.go)

    A shallow embedding of the two Go files.  Go values are modelled as
    follows.

    - A slice [[]T] is [option (list T)]: [None] is the nil slice, [Some l]
      a non-nil slice with elements [l].  The code tests [dr.staticSet != nil],
      so the difference between nil and empty is kept.
    - [int] is a 64-bit two's-complement integer: a [Z] with the wrap-around
      of [+] and [-] written out ([wrap]).
    - [error] is an inductive type with one constructor per [fmt.Errorf] /
      [errors.New] site; a constructor carries the values the format string
      prints ([%s], [%q], [%v]).  A Go [error] that may be nil is
      [option error].
    - The blob store behind a [blob.SeekFetcher] is immutable and
      content-addressed, so a fetcher is a function from refs to contents;
      the calls made on it, and the streams it hands out and that get
      closed, are recorded in an event trace ([world]) that every
      operation threads through.
    - Code that is not part of the two files (blob.Ref, the JSON decoder,
      parseSuperset, NewDirectoryEntryFromBlobRef, base64) is a [Variable]
      of the section that uses it. *)

From Stdlib Require Import ZArith Lia Ascii String.
From stdpp Require Import base option list strings gmap.

Local Open Scope Z_scope.
Set Warnings "-register-all".

(** ** Go slices and ints *)

Definition slice (A : Type) : Type := option (list A).

Definition elems {A} (s : slice A) : list A := default [] s.

(** [append(s, x)]: the result is never nil. *)
Definition append {A} (s : slice A) (x : A) : slice A := Some (elems s ++ [x]).

Definition len {A} (s : slice A) : Z := Z.of_nat (length (elems s)).

(** [s[lo:hi]].  Go panics unless [0 <= lo <= hi <= cap(s)]; the model
    panics ([None]) unless [0 <= lo <= hi <= len(s)].  (Readdir never
    slices beyond [len], see [Readdir_up_le_len].)  Slicing a nil slice
    [0:0] gives a nil slice. *)
Definition slice_range {A} (s : slice A) (lo hi : Z) : option (slice A) :=
  if bool_decide (0 <= lo /\ lo <= hi /\ hi <= len s) then
    Some (match s with
          | None => None
          | Some l => Some (take (Z.to_nat (hi - lo)) (drop (Z.to_nat lo) l))
          end)
  else None.

Definition int_min : Z := - 2 ^ 63.
Definition int_max : Z := 2 ^ 63 - 1.

Definition wrap (z : Z) : Z := (z + 2 ^ 63) mod 2 ^ 64 - 2 ^ 63.

Definition int_add (a b : Z) : Z := wrap (a + b).
Definition int_sub (a b : Z) : Z := wrap (a - b).

(** What a Go function call can do: return, panic, or block forever. *)
Inductive outcome (A : Type) : Type :=
| Returns (a : A)
| Panics
| Blocks.
Arguments Returns {A} a.
Arguments Panics {A}.
Arguments Blocks {A}.

Module Schema.

Section DirReader.

(** blob.Ref, its zero value and its [Valid] method (package blob). *)
Context {Ref : Type}.
Variable zeroRef : Ref.
Variable Valid : Ref -> bool.

(** The [DirectoryEntry] interface (schema package, other file). *)
Context {DirectoryEntry : Type}.

(** Errors, one constructor per place where the code makes one. *)
Inductive error : Type :=
| ErrBlobrefInvalid                                   (* dirreader.go:70 *)
| ErrFetching (r : Ref) (cause : error)               (* :75 and :95 *)
| ErrDecoding (r : Ref) (cause : error)               (* :79 and :99 *)
| ErrExpectedDirectory (r : Ref) (got : string)       (* :47 *)
| ErrCreatingDirReader (r : Ref) (cause : error)      (* :51 *)
| ErrSupersetNotDirectory                             (* :63 *)
| ErrInvalidBlobref                                   (* :91 *)
| ErrExpectedStaticSet (r : Ref) (got : string)       (* :102 *)
| ErrInvalidMember                                    (* :106 *)
| ErrCantGetStaticSet (cause : error)                 (* :117 *)
| ErrCantCreateDirEntry (printed : option error)      (* :158, prints [err] with %v *)
| EOF                                                 (* io.EOF *)
| ErrExternal (msg : string).                         (* made by a collaborator *)

(** The fields of [superset] that dirreader.go reads or writes. *)
Record superset : Type := mkSuperset {
  BlobRef : Ref;
  Type_ : string;
  Entries : Ref;
  Members : list Ref
}.

(** [new(superset)] *)
Definition new_superset : superset :=
  {| BlobRef := zeroRef; Type_ := ""; Entries := zeroRef; Members := [] |}.

Definition set_BlobRef (r : Ref) (ss : superset) : superset :=
  {| BlobRef := r; Type_ := Type_ ss; Entries := Entries ss; Members := Members ss |}.

(** [json.NewDecoder(rsc).Decode(ss)]: decodes the stream's content into
    the struct [ss] points to, and reports an error or nil. *)
Variable jsonDecode : string -> superset -> option error * superset.

(** [parseSuperset(rsc)] (schema package, other file): reads the stream
    and decodes it into a fresh superset.  It takes a reader and does
    nothing else to the stream. *)
Variable parseSuperset : string -> error + superset.

(** ** The fetcher and the trace of what is done with it *)

(** A blob.SeekFetcher over an immutable store: the content of a blob,
    or an error. *)
Definition SeekFetcher : Type := Ref -> error + string.

(** [NewDirectoryEntryFromBlobRef(fetcher, entRef)] (schema package,
    other file): the entry and the error it returns. *)
Variable NewDirectoryEntryFromBlobRef : SeekFetcher -> Ref -> DirectoryEntry * option error.

(** The stream a successful Fetch returns: it is named by the position
    of its Fetch call in the trace. *)
Record stream : Type := mkStream { handle : nat; data : string }.

Inductive event : Type :=
| EvFetch (r : Ref) (h : option nat)   (* Fetch(r); [Some h]: stream h was handed out *)
| EvClose (h : nat).                   (* Close() on stream h *)

(** Oldest event first. *)
Definition world : Type := list event.

Definition Fetch (fetcher : SeekFetcher) (r : Ref) (w : world)
  : (error + stream) * world :=
  match fetcher r with
  | inl err => (inl err, w ++ [EvFetch r None])
  | inr bytes =>
      let h := length w in
      (inr {| handle := h; data := bytes |}, w ++ [EvFetch r (Some h)])
  end.

Definition Close (rsc : stream) (w : world) : world := w ++ [EvClose (handle rsc)].

(** The refs Fetch was called on, in order. *)
Definition fetches (w : world) : list Ref :=
  omap (fun e => match e with EvFetch r _ => Some r | EvClose _ => None end) w.

Definition opened (w : world) : list nat :=
  omap (fun e => match e with EvFetch _ h => h | EvClose _ => None end) w.

Definition closed (w : world) : list nat :=
  omap (fun e => match e with EvFetch _ _ => None | EvClose h => Some h end) w.

(** The streams handed out and not closed. *)
Definition open_streams (w : world) : list nat :=
  filter (fun h => h ∉ closed w) (opened w).

(** ** DirReader *)

Record DirReader : Type := mkDirReader {
  fetcher : SeekFetcher;
  ss : superset;
  staticSet : slice Ref;
  current : Z
}.

Definition set_staticSet (s : slice Ref) (dr : DirReader) : DirReader :=
  {| fetcher := fetcher dr; ss := ss dr; staticSet := s; current := current dr |}.

Definition set_current (c : Z) (dr : DirReader) : DirReader :=
  {| fetcher := fetcher dr; ss := ss dr; staticSet := staticSet dr; current := c |}.

(** [superset.setFromBlobRef(fetcher, blobRef)].
    Returns the error and the superset as the call leaves it.  The
    deferred [rsc.Close()] runs when the function returns, on both paths
    after the Fetch succeeded. *)
Definition setFromBlobRef (ss : superset) (fetcher : SeekFetcher) (blobRef : Ref)
    (w : world) : option error * superset * world :=
  if negb (Valid blobRef) then (Some ErrBlobrefInvalid, ss, w)
  else
    let ss := set_BlobRef blobRef ss in
    match Fetch fetcher blobRef w with
    | (inl err, w) => (Some (ErrFetching blobRef err), ss, w)
    | (inr rsc, w) =>
        match jsonDecode (data rsc) ss with
        | (Some err, ss) => (Some (ErrDecoding blobRef err), ss, Close rsc w)
        | (None, ss) => (None, ss, Close rsc w)
        end
    end.

(** [superset.NewDirReader(fetcher)], returning a DirReader or an error *)
Definition superset_NewDirReader (ss : superset) (fetcher : SeekFetcher)
  : error + DirReader :=
  if negb (String.eqb (Type_ ss) "directory") then inl ErrSupersetNotDirectory
  else inr {| fetcher := fetcher; ss := ss; staticSet := None; current := 0 |}.

(** [NewDirReader(fetcher, dirBlobRef)], returning a DirReader or an error *)
Definition NewDirReader (fetcher : SeekFetcher) (dirBlobRef : Ref) (w : world)
  : (error + DirReader) * world :=
  let ss := new_superset in
  match setFromBlobRef ss fetcher dirBlobRef w with
  | (Some err, _, w) => (inl err, w)
  | (None, ss, w) =>
      if negb (String.eqb (Type_ ss) "directory") then
        (inl (ErrExpectedDirectory dirBlobRef (Type_ ss)), w)
      else
        match superset_NewDirReader ss fetcher with
        | inl err => (inl (ErrCreatingDirReader dirBlobRef err), w)
        | inr dr => (inr (set_current 0 dr), w)
        end
  end.

(** The loop of StaticSet (lines 104-109): it appends to [dr.staticSet]
    member by member and returns at the first invalid one. *)
Fixpoint StaticSet_members (members : list Ref) (dr : DirReader)
  : (slice Ref * option error) * DirReader :=
  match members with
  | [] => ((staticSet dr, None), dr)
  | member :: members =>
      if negb (Valid member) then ((None, Some ErrInvalidMember), dr)
      else StaticSet_members members (set_staticSet (append (staticSet dr) member) dr)
  end.

(** [DirReader.StaticSet()] *)
Definition StaticSet (dr : DirReader) (w : world)
  : (slice Ref * option error) * DirReader * world :=
  match staticSet dr with
  | Some s => ((Some s, None), dr, w)
  | None =>
      let staticSetBlobref := Entries (ss dr) in
      if negb (Valid staticSetBlobref) then ((None, Some ErrInvalidBlobref), dr, w)
      else
        match Fetch (fetcher dr) staticSetBlobref w with
        | (inl err, w) => ((None, Some (ErrFetching staticSetBlobref err)), dr, w)
        | (inr rsc, w) =>
            match parseSuperset (data rsc) with
            | inl err => ((None, Some (ErrDecoding staticSetBlobref err)), dr, w)
            | inr ss =>
                if negb (String.eqb (Type_ ss) "static-set") then
                  ((None, Some (ErrExpectedStaticSet staticSetBlobref (Type_ ss))), dr, w)
                else
                  (StaticSet_members (Members ss) dr, w)
            end
        end
  end.

(** ** Readdir: one goroutine and one channel per member *)

(** [type res struct { ent DirectoryEntry; err error }] *)
Record res : Type := mkRes { ent : DirectoryEntry; err : option error }.

(** Goroutine [i] and its private channel [cs[i]] (buffer size 1).  The
    goroutine sends exactly once and nobody else touches the channel, so
    the pair is in one of three states. *)
Inductive task : Type :=
| Running (entRef : Ref)   (* started; nothing sent on the channel yet *)
| Sent (r : res)           (* [c <- res{entry, err}] done, value buffered *)
| Drained.                 (* the value has been received *)

(** The state of Readdir from line 155 on. *)
Record collector : Type := mkCollector {
  cs : list task;
  next : nat;                                           (* position of [range cs] *)
  entries : slice DirectoryEntry;
  ret : option (slice DirectoryEntry * option error)    (* set by a return statement *)
}.

(** Lines 146-153: every goroutine has been started, none has been
    scheduled yet.  (A goroutine touches only its own channel, so one
    that runs while later ones are still being started is the same as one
    that runs right after the loop.) *)
Definition kick_off (range : list Ref) : collector :=
  {| cs := Running <$> range; next := 0%nat; entries := None; ret := None |}.

(** What the scheduler picks next: goroutine [i], or the function's own
    goroutine. *)
Inductive action : Type :=
| Go (i : nat)
| Main.

(** The body of goroutine [i] (lines 150-151). *)
Definition run_goroutine (fetcher : SeekFetcher) (i : nat) (st : collector) : collector :=
  match cs st !! i with
  | Some (Running entRef) =>
      let '(entry, err) := NewDirectoryEntryFromBlobRef fetcher entRef in
      {| cs := <[i := Sent {| ent := entry; err := err |}]> (cs st);
         next := next st; entries := entries st; ret := ret st |}
  | _ => st
  end.

(** One turn of the loop of lines 155-161, or the return of line 162.
    [outer] is the value of the function's result variable [err], which
    line 158 prints.  A receive on an empty channel makes no progress. *)
Definition run_main (outer : option error) (st : collector) : collector :=
  match ret st with
  | Some _ => st
  | None =>
      match cs st !! next st with
      | None =>
          {| cs := cs st; next := next st; entries := entries st;
             ret := Some (entries st, None) |}
      | Some (Sent res) =>
          match err res with
          | Some _ =>
              {| cs := <[next st := Drained]> (cs st); next := next st;
                 entries := entries st;
                 ret := Some (None, Some (ErrCantCreateDirEntry outer)) |}
          | None =>
              {| cs := <[next st := Drained]> (cs st); next := S (next st);
                 entries := append (entries st) (ent res); ret := None |}
          end
      | Some _ => st
      end
  end.

Definition step (fetcher : SeekFetcher) (outer : option error) (a : action)
    (st : collector) : collector :=
  match a with
  | Go i => run_goroutine fetcher i st
  | Main => run_main outer st
  end.

Definition run (fetcher : SeekFetcher) (outer : option error) (sched : list action)
    (st : collector) : collector :=
  foldl (fun st a => step fetcher outer a st) st sched.

(** When the given schedule is used up the runtime still runs whatever
    can run: every goroutine once more (a no-op for those that have
    sent), then the main goroutine for each channel and the return. *)
Definition fair_tail (k : nat) : list action :=
  (Go <$> seq 0 k) ++ replicate (S k) Main.

(** Lines 119-128: the reader with its cursor reset or not, the upper
    bound [up], and the value of the result variable [err]. *)
Definition Readdir_range (n : Z) (dr : DirReader) (sts : slice Ref)
  : DirReader * Z * option error :=
  let up := int_add (current dr) n in
  if bool_decide (n <= 0) then (set_current 0 dr, len sts, None)
  else if bool_decide (n > int_sub (len sts) (current dr)) then (dr, len sts, Some EOF)
  else (dr, up, None).

(** [DirReader.Readdir(n)].  [sched] is the order in which the scheduler
    lets the goroutines and the collecting loop run. *)
Definition Readdir (sched : list action) (n : Z) (dr : DirReader) (w : world)
  : outcome ((slice DirectoryEntry * option error) * DirReader * world) :=
  match StaticSet dr w with
  | ((_, Some err), dr, w) => Returns ((None, Some (ErrCantGetStaticSet err)), dr, w)
  | ((sts, None), dr, w) =>
      let '(dr, up, err) := Readdir_range n dr sts in
      match slice_range sts (current dr) up with
      | None => Panics
      | Some range =>
          let st := run (fetcher dr) err (sched ++ fair_tail (length (elems range)))
                        (kick_off (elems range)) in
          match ret st with
          | Some r => Returns (r, dr, w)
          | None => Blocks
          end
      end
  end.

(** What goroutine [i] sends for member [entRef]. *)
Definition resolve (fetcher : SeekFetcher) (entRef : Ref) : res :=
  let '(entry, err) := NewDirectoryEntryFromBlobRef fetcher entRef in
  {| ent := entry; err := err |}.

(** The loop of lines 155-161 read sequentially over results that are
    all there: the reference the scheduled runs are compared with. *)
Fixpoint collect (outer : option error) (rs : list res) (entries : slice DirectoryEntry)
  : slice DirectoryEntry * option error :=
  match rs with
  | [] => (entries, None)
  | r :: rs =>
      match err r with
      | Some _ => (None, Some (ErrCantCreateDirEntry outer))
      | None => collect outer rs (append entries (ent r))
      end
  end.

(** [l] appended to [s] element by element: nil stays nil when [l] is empty. *)
Definition extend {A} (s : slice A) (l : list A) : slice A :=
  match l with
  | [] => s
  | _ => Some (elems s ++ l)
  end.

(** Every stream opened or closed in the trace is named by a position
    inside the trace. *)
Definition trace_ok (w : world) : Prop :=
  forall h, h ∈ opened w \/ h ∈ closed w -> (h < length w)%nat.

End DirReader.

Arguments error : clear implicits.
Arguments superset : clear implicits.
Arguments SeekFetcher : clear implicits.
Arguments event : clear implicits.
Arguments world : clear implicits.
Arguments DirReader : clear implicits.
Arguments res : clear implicits.
Arguments task : clear implicits.
Arguments collector : clear implicits.

End Schema.

(** * lib/go/camli/auth/auth.go *)

Module Auth.

Local Open Scope string_scope.

(** The errors basicAuth makes, and the one base64 decoding reports. *)
Inductive Error : Type :=
| ErrMissingAuthorization            (* auth.go:80 *)
| ErrBogusAuthorization              (* :84 *)
| ErrTwoPieces                       (* :95 *)
| CorruptInputError (offset : Z).    (* encoding/base64 *)

(** [http.Request], as far as auth.go looks at it: the header map, with
    canonical keys. *)
Record Request : Type := mkRequest { Header : gmap string (list string) }.

(** [req.Header.Get(key)]: the first value under [key], or the empty string. *)
Definition Header_Get (h : gmap string (list string)) (key : string) : string :=
  match h !! key with
  | Some (v :: _) => v
  | _ => ""
  end.

(** The character class of kBasicAuthPattern: a-z, A-Z, 0-9, plus, slash, equals. *)
Definition base64_class (c : ascii) : bool :=
  let n := nat_of_ascii c in
  ((97 <=? n) && (n <=? 122) || (65 <=? n) && (n <=? 90) || (48 <=? n) && (n <=? 57)
   || (n =? 43) || (n =? 47) || (n =? 61))%nat.

(** The longest prefix made of characters of the class (a greedy [+]). *)
Fixpoint class_run (s : string) : string :=
  match s with
  | EmptyString => EmptyString
  | String c s' => if base64_class c then String c (class_run s') else EmptyString
  end.

(** [s] without the prefix [p], when it starts with it. *)
Fixpoint strip_prefix (p s : string) : option string :=
  match p, s with
  | EmptyString, _ => Some s
  | String a p', String b s' => if Ascii.eqb a b then strip_prefix p' s' else None
  | String _ _, EmptyString => None
  end.

(** [kBasicAuthPattern.FindStringSubmatch(auth)] for the pattern
    [^Basic (class+)]: the whole match and the group, or nil. *)
Definition FindStringSubmatch (auth : string) : list string :=
  match strip_prefix "Basic " auth with
  | None => []
  | Some rest =>
      match class_run rest with
      | EmptyString => []
      | encoded => ["Basic " ++ encoded; encoded]
      end
  end.

(** [s] cut at its first colon. *)
Fixpoint cut_colon (s : string) : option (string * string) :=
  match s with
  | EmptyString => None
  | String c s' =>
      if Ascii.eqb c ":" then Some (EmptyString, s')
      else match cut_colon s' with
           | Some (before, after) => Some (String c before, after)
           | None => None
           end
  end.

(** [strings.SplitN(s, ":", 2)] *)
Definition SplitN_colon_2 (s : string) : list string :=
  match cut_colon s with
  | Some (before, after) => [before; after]
  | None => [s]
  end.

Section BasicAuth.

(** [base64.StdEncoding.Decode] on the whole of [encoded]: the bytes
    [decBuf[0:n]], or the error. *)
Variable StdEncoding_Decode : string -> Error + string.

(** [func basicAuth(req) (string, string, os.Error)] *)
Definition basicAuth (req : Request) : string * string * option Error :=
  let auth := Header_Get (Header req) "Authorization" in
  if String.eqb auth "" then ("", "", Some ErrMissingAuthorization)
  else
    match FindStringSubmatch auth with
    | [_; encoded] =>
        match StdEncoding_Decode encoded with
        | inl err => ("", "", Some err)
        | inr decoded =>
            match SplitN_colon_2 decoded with
            | [user; pass] => (user, pass, None)
            | _ => ("", "", Some ErrTwoPieces)
            end
        end
    | _ => ("", "", Some ErrBogusAuthorization)
    end.

Record UserPass : Type := mkUserPass { Username : string; UserPass_Password : string }.

(** [func (up *UserPass) IsAuthorized(req) bool] (the message it prints
    on an error is not modelled). *)
Definition UserPass_IsAuthorized (up : UserPass) (req : Request) : bool :=
  match basicAuth req with
  | (_, _, Some _) => false
  | (user, pass, None) => String.eqb user (Username up) && String.eqb pass (UserPass_Password up)
  end.

Record DevAuth : Type := mkDevAuth { Password : string }.

(** [func (da *DevAuth) IsAuthorized(req) bool] *)
Definition DevAuth_IsAuthorized (da : DevAuth) (req : Request) : bool :=
  match basicAuth req with
  | (_, _, Some _) => false
  | (_, pass, None) => String.eqb pass (Password da)
  end.

End BasicAuth.

(** Whether [s] holds a colon. *)
Definition has_colon (s : string) : bool :=
  match cut_colon s with Some _ => true | None => false end.

(** Whether every character of [s] is of the class of the pattern. *)
Fixpoint all_base64_class (s : string) : bool :=
  match s with
  | EmptyString => true
  | String c s' => base64_class c && all_base64_class s'
  end.

End Auth.

(** * auth.go: configuration, the request gate and the client side *)

Module AuthGate.
Import Auth.

Local Open Scope string_scope.

(** [strings.Split(s, ":")]: the pieces between the colons; one piece,
    the empty string, for the empty string. *)
Fixpoint Split_colon (s : string) : list string :=
  match s with
  | EmptyString => [EmptyString]
  | String c s' =>
      if Ascii.eqb c ":" then EmptyString :: Split_colon s'
      else match Split_colon s' with
           | piece :: pieces => String c piece :: pieces
           | [] => [String c EmptyString]
           end
  end.

(** The two implementations of the [AuthMode] interface. *)
Inductive AuthMode : Type :=
| ModeUserPass (up : UserPass)
| ModeDevAuth (da : DevAuth).

(** The errors FromConfig makes. *)
Inductive ConfigError : Type :=
| ErrInvalidAuthString (authConfig : string)   (* auth.go:54 *)
| ErrWrongUserpass                             (* :66 *)
| ErrUnknownAuthType (authType : string).      (* :72 *)

(** [func FromConfig(authConfig string) (AuthMode, os.Error)].
    [getenv] is [os.Getenv] (the empty string for an unset variable) and
    [mode] the package variable, whose new value is the third result. *)
Definition FromConfig (getenv : string -> string) (mode : option AuthMode)
    (authConfig : string)
  : option AuthMode * option ConfigError * option AuthMode :=
  let pieces := Split_colon authConfig in
  match pieces with
  | [] => (None, Some (ErrInvalidAuthString authConfig), mode)
  | authType :: _ =>
      let pw := getenv "CAMLI_ADVERTISED_PASSWORD" in
      if negb (String.eqb pw "") then
        let mode := Some (ModeDevAuth {| Password := pw |}) in
        (mode, None, mode)
      else if String.eqb authType "userpass" then
        match pieces with
        | [_; username; password] =>
            let mode := Some (ModeUserPass {| Username := username;
                                              UserPass_Password := password |}) in
            (mode, None, mode)
        | _ => (None, Some ErrWrongUserpass, mode)
        end
      else (None, Some (ErrUnknownAuthType authType), mode)
  end.

(** [func FromEnv() (AuthMode, os.Error)] *)
Definition FromEnv (getenv : string -> string) (mode : option AuthMode)
  : option AuthMode * option ConfigError * option AuthMode :=
  FromConfig getenv mode (getenv "CAMLI_AUTH").

(** [func TriedAuthorization(req) bool] *)
Definition TriedAuthorization (req : Request) : bool :=
  negb (String.eqb (Header_Get (Header req) "Authorization") "").

(** An [http.ResponseWriter] is an interface: what is known of one is
    the calls made on it, oldest first. *)
Inductive conn_call : Type :=
| HeaderSet (key value : string)   (* conn.Header().Set(key, value) *)
| WriteHeader (status : Z)         (* conn.WriteHeader(status) *)
| Write (body : string).           (* what Fprintf writes to conn *)

Definition ResponseWriter : Type := list conn_call.

Definition StatusUnauthorized : Z := 401.

Section Gate.

Variable StdEncoding_Decode : string -> Error + string.

(** [fmt.Sprintf] of a string under the verb [%q]. *)
Variable Quote : string -> string.

(** [base64.StdEncoding.EncodeToString] *)
Variable StdEncoding_EncodeToString : string -> string.

(** [m.IsAuthorized(req)] on a non-nil [AuthMode]. *)
Definition AuthMode_IsAuthorized (m : AuthMode) (req : Request) : bool :=
  match m with
  | ModeUserPass up => UserPass_IsAuthorized StdEncoding_Decode up req
  | ModeDevAuth da => DevAuth_IsAuthorized StdEncoding_Decode da req
  end.

(** [func IsAuthorized(req) bool]: a method call on the package
    variable, which panics while it is nil. *)
Definition IsAuthorized (mode : option AuthMode) (req : Request) : outcome bool :=
  match mode with
  | None => Panics
  | Some m => Returns (AuthMode_IsAuthorized m req)
  end.

(** [func SendUnauthorized(conn)] *)
Definition SendUnauthorized (mode : option AuthMode) (conn : ResponseWriter)
  : ResponseWriter :=
  let realm :=
    match mode with
    | Some (ModeDevAuth devAuth) => "Any username, password is: " ++ Password devAuth
    | _ => "camlistored"
    end in
  (conn ++ [HeaderSet "WWW-Authenticate" ("Basic realm=" ++ Quote realm);
            WriteHeader StatusUnauthorized;
            Write "<h1>Unauthorized</h1>"])%list.

(** [func RequireAuth(handler)]: the function it returns, which reads
    the package variable when it is called. *)
Definition RequireAuth (handler : ResponseWriter -> Request -> ResponseWriter)
    (mode : option AuthMode) (conn : ResponseWriter) (req : Request)
  : outcome ResponseWriter :=
  match mode with
  | None => Panics
  | Some m =>
      if AuthMode_IsAuthorized m req then Returns (handler conn req)
      else Returns (SendUnauthorized mode conn)
  end.

(** [req.SetBasicAuth(username, password)] (net/http): it sets the
    Authorization header to [Basic] and the base64 text of
    [username:password]. *)
Definition SetBasicAuth (req : Request) (username password : string) : Request :=
  {| Header := <["Authorization" :=
                  ["Basic " ++ StdEncoding_EncodeToString (username ++ ":" ++ password)]]>
               (Header req) |}.

(** [func (up *UserPass) AddAuthHeader(req)] *)
Definition UserPass_AddAuthHeader (up : UserPass) (req : Request) : Request :=
  SetBasicAuth req (Username up) (UserPass_Password up).

(** [func (da *DevAuth) AddAuthHeader(req)] *)
Definition DevAuth_AddAuthHeader (da : DevAuth) (req : Request) : Request :=
  SetBasicAuth req "" (Password da).

(** [m.AddAuthHeader(req)] on a non-nil [AuthMode]. *)
Definition AuthMode_AddAuthHeader (m : AuthMode) (req : Request) : Request :=
  match m with
  | ModeUserPass up => UserPass_AddAuthHeader up req
  | ModeDevAuth da => DevAuth_AddAuthHeader da req
  end.

End Gate.

(** The text a mode's AddAuthHeader hands to base64: [username:password]. *)
Definition credentials (m : AuthMode) : string :=
  match m with
  | ModeUserPass up => Username up ++ ":" ++ UserPass_Password up
  | ModeDevAuth da => ":" ++ Password da
  end.

(** The pieces joined by colons again. *)
Fixpoint Join_colon (pieces : list string) : string :=
  match pieces with
  | [] => ""
  | [piece] => piece
  | piece :: pieces => piece ++ ":" ++ Join_colon pieces
  end.

End AuthGate.

(** * Test doubles: a blob store, decoders and a base64 decoder *)

Module Fixture.
Import Schema.

Local Open Scope string_scope.

(** Refs are strings; the valid ones start with [sha1-]. *)
Definition Valid (r : string) : bool := String.prefix "sha1-" r.

Definition dir_doc (entries : string) : string :=
  "{camliType: directory, entries: " ++ entries ++ "}".

Definition file_doc (name : string) : string :=
  "{camliType: file, fileName: " ++ name ++ "}".

(** A store with a directory of three files, one whose static set has
    a malformed member, one whose static set is empty, and one with a
    member that is not in the store. *)
Definition store : list (string * string) :=
  [ ("sha1-dir", dir_doc "sha1-set");
    ("sha1-set", "{camliType: static-set, members: [sha1-a, sha1-b, sha1-c]}");
    ("sha1-a", file_doc "a");
    ("sha1-b", file_doc "b");
    ("sha1-c", file_doc "c");
    ("sha1-dir-bad", dir_doc "sha1-set-bad");
    ("sha1-set-bad", "{camliType: static-set, members: [sha1-a, bogus, sha1-c]}");
    ("sha1-dir-empty", dir_doc "sha1-set-empty");
    ("sha1-set-empty", "{camliType: static-set, members: []}");
    ("sha1-dir-gap", dir_doc "sha1-set-gap");
    ("sha1-set-gap", "{camliType: static-set, members: [sha1-a, sha1-gone, sha1-c]}") ].

Fixpoint assoc {V} (k : string) (l : list (string * V)) : option V :=
  match l with
  | [] => None
  | (k', v) :: l => if String.eqb k k' then Some v else assoc k l
  end.

Definition fetcher : SeekFetcher string :=
  fun r => match assoc r store with
           | Some bytes => inr bytes
           | None => inl (ErrExternal "blob not found")
           end.

(** The decoder's answers, by document. *)
Definition documents : list (string * superset string) :=
  [ (dir_doc "sha1-set", mkSuperset "" "directory" "sha1-set" []);
    (dir_doc "sha1-set-bad", mkSuperset "" "directory" "sha1-set-bad" []);
    (dir_doc "sha1-set-empty", mkSuperset "" "directory" "sha1-set-empty" []);
    (dir_doc "sha1-set-gap", mkSuperset "" "directory" "sha1-set-gap" []);
    ("{camliType: static-set, members: [sha1-a, sha1-b, sha1-c]}",
     mkSuperset "" "static-set" "" ["sha1-a"; "sha1-b"; "sha1-c"]);
    ("{camliType: static-set, members: [sha1-a, bogus, sha1-c]}",
     mkSuperset "" "static-set" "" ["sha1-a"; "bogus"; "sha1-c"]);
    ("{camliType: static-set, members: []}", mkSuperset "" "static-set" "" []);
    ("{camliType: static-set, members: [sha1-a, sha1-gone, sha1-c]}",
     mkSuperset "" "static-set" "" ["sha1-a"; "sha1-gone"; "sha1-c"]);
    (file_doc "a", mkSuperset "" "file" "" []);
    (file_doc "b", mkSuperset "" "file" "" []);
    (file_doc "c", mkSuperset "" "file" "" []) ].

Definition parseSuperset (bytes : string) : error string + superset string :=
  match assoc bytes documents with
  | Some ss => inr ss
  | None => inl (ErrExternal "invalid JSON")
  end.

Definition jsonDecode (bytes : string) (ss : superset string)
  : option (error string) * superset string :=
  match assoc bytes documents with
  | Some d => (None, mkSuperset (BlobRef ss) (Type_ d) (Entries d) (Members d))
  | None => (Some (ErrExternal "invalid JSON"), ss)
  end.

(** An entry is the document of its blob. *)
Definition NewDirectoryEntryFromBlobRef (f : SeekFetcher string) (r : string)
  : string * option (error string) :=
  match f r with
  | inr bytes => (bytes, None)
  | inl e => ("", Some e)
  end.

(** A reader as NewDirReader makes it for a directory whose static set
    is the blob [entries]; the same reader with members cached and the
    cursor at [cur]; and the trace after one fetch of [entries]. *)
Definition reader (entries : string) : DirReader string :=
  mkDirReader fetcher (mkSuperset "sha1-dir" "directory" entries []) None 0.

Definition reader_at (entries : string) (members : slice string) (cur : Z)
  : DirReader string :=
  mkDirReader fetcher (mkSuperset "sha1-dir" "directory" entries []) members cur.

Definition fetched (entries : string) : world string := [EvFetch entries (Some 0%nat)].

Definition StaticSet := Schema.StaticSet Valid parseSuperset.
Definition Readdir := Schema.Readdir Valid parseSuperset NewDirectoryEntryFromBlobRef.
Definition NewDirReader := Schema.NewDirReader "" Valid jsonDecode.

(** Base64 of RFC 4648, standard alphabet, with padding. *)
Definition b64_value (c : ascii) : option N :=
  let n := N_of_ascii c in
  if ((65 <=? n) && (n <=? 90))%N then Some (n - 65)%N
  else if ((97 <=? n) && (n <=? 122))%N then Some (n - 71)%N
  else if ((48 <=? n) && (n <=? 57))%N then Some (n + 4)%N
  else if (n =? 43)%N then Some 62%N
  else if (n =? 47)%N then Some 63%N
  else None.

Definition b64_bytes (k : nat) (v : N) : string :=
  let b1 := ascii_of_N (v / 65536) in
  let b2 := ascii_of_N ((v / 256) mod 256) in
  let b3 := ascii_of_N (v mod 256) in
  match k with
  | 1%nat => String b1 ""
  | 2%nat => String b1 (String b2 "")
  | _ => String b1 (String b2 (String b3 ""))
  end.

Definition b64_quad (k : nat) (a b c d : ascii) : option string :=
  match b64_value a, b64_value b, b64_value c, b64_value d with
  | Some x, Some y, Some z, Some t => Some (b64_bytes k (((x * 64 + y) * 64 + z) * 64 + t)%N)
  | _, _, _, _ => None
  end.

Fixpoint b64_decode (s : string) : option string :=
  match s with
  | EmptyString => Some EmptyString
  | String a (String b (String c (String d rest))) =>
      match rest with
      | EmptyString =>
          if Ascii.eqb d "=" then
            if Ascii.eqb c "=" then b64_quad 1 a b "A" "A" else b64_quad 2 a b c "A"
          else b64_quad 3 a b c d
      | _ =>
          match b64_quad 3 a b c d, b64_decode rest with
          | Some x, Some y => Some (x ++ y)
          | _, _ => None
          end
      end
  | _ => None
  end.

Definition StdEncoding_Decode (encoded : string) : Auth.Error + string :=
  match b64_decode encoded with
  | Some decoded => inr decoded
  | None => inl (Auth.CorruptInputError 0)
  end.

(** A request with one Authorization header. *)
Definition request (authorization : string) : Auth.Request :=
  Auth.mkRequest {[ "Authorization" := [authorization] ]}.


(** Base64 encoding of RFC 4648, standard alphabet, with padding. *)
Definition b64_digit (v : N) : ascii :=
  if (v <? 26)%N then ascii_of_N (v + 65)
  else if (v <? 52)%N then ascii_of_N (v + 71)
  else if (v <? 62)%N then ascii_of_N (v - 4)
  else if (v =? 62)%N then "+"%char
  else "/"%char.

Fixpoint b64_encode (s : string) : string :=
  match s with
  | EmptyString => EmptyString
  | String a EmptyString =>
      let v := (N_of_ascii a * 65536)%N in
      String (b64_digit (v / 262144)) (String (b64_digit ((v / 4096) mod 64)) "==")
  | String a (String b EmptyString) =>
      let v := (N_of_ascii a * 65536 + N_of_ascii b * 256)%N in
      String (b64_digit (v / 262144)) (String (b64_digit ((v / 4096) mod 64))
        (String (b64_digit ((v / 64) mod 64)) "="))
  | String a (String b (String c rest)) =>
      let v := (N_of_ascii a * 65536 + N_of_ascii b * 256 + N_of_ascii c)%N in
      String (b64_digit (v / 262144)) (String (b64_digit ((v / 4096) mod 64))
        (String (b64_digit ((v / 64) mod 64)) (String (b64_digit (v mod 64))
          (b64_encode rest))))
  end.

(** [%q] for strings without characters to escape. *)
Definition Quote (s : string) : string := String "034" (s ++ String "034" "").

(** An environment with the given variables set. *)
Definition getenv (vars : list (string * string)) (name : string) : string :=
  match assoc name vars with
  | Some v => v
  | None => ""
  end.

End Fixture.

Module SchemaTheory.
Import Schema.

Section Proofs.

Context {Ref DirectoryEntry : Type}.
Context (zeroRef : Ref) (Valid : Ref -> bool).
Context (jsonDecode : string -> superset Ref -> option (error Ref) * superset Ref).
Context (parseSuperset : string -> error Ref + superset Ref).
Context (NewDirectoryEntryFromBlobRef :
           SeekFetcher Ref -> Ref -> DirectoryEntry * option (error Ref)).

Local Abbreviation setFromBlobRef := (Schema.setFromBlobRef Valid jsonDecode).
Local Abbreviation NewDirReader := (Schema.NewDirReader zeroRef Valid jsonDecode).
Local Abbreviation StaticSet_members := (Schema.StaticSet_members Valid).
Local Abbreviation StaticSet := (Schema.StaticSet Valid parseSuperset).
Local Abbreviation Readdir := (Schema.Readdir Valid parseSuperset NewDirectoryEntryFromBlobRef).
Local Abbreviation resolve := (Schema.resolve NewDirectoryEntryFromBlobRef).
Local Abbreviation run := (Schema.run NewDirectoryEntryFromBlobRef).
Local Abbreviation step := (Schema.step NewDirectoryEntryFromBlobRef).

Implicit Types (dr : DirReader Ref) (w : world Ref) (sts : slice Ref).


(** ** Ints and slices *)

Lemma wrap_id (z : Z) : int_min <= z <= int_max -> wrap z = z.
Proof.
  unfold int_min, int_max, wrap. intros Hz.
  rewrite Z.mod_small by lia. lia.
Qed.

Lemma len_nonneg {A} (s : slice A) : 0 <= len s.
Proof. unfold len. lia. Qed.

Lemma elems_extend {A} (s : slice A) (l : list A) :
  elems (extend s l) = elems s ++ l.
Proof. destruct l; simpl; [by rewrite app_nil_r | done]. Qed.

Lemma extend_append {A} (s : slice A) (x : A) (l : list A) :
  extend (append s x) l = extend s (x :: l).
Proof.
  destruct l as [|y l]; simpl; [done|].
  by rewrite <- app_assoc.
Qed.

Lemma slice_range_all {A} (s : slice A) :
  exists range, slice_range s 0 (len s) = Some range /\ elems range = elems s.
Proof.
  unfold slice_range. pose proof (len_nonneg s).
  rewrite bool_decide_eq_true_2 by lia.
  destruct s as [l|]; eexists; split; try reflexivity.
  simpl. unfold len. simpl. rewrite Z.sub_0_r, Nat2Z.id, drop_0.
  by rewrite firstn_all.
Qed.

Lemma slice_range_elems {A} (s range : slice A) (lo hi : Z) :
  slice_range s lo hi = Some range ->
  0 <= lo /\ lo <= hi /\ hi <= len s /\
  elems range = take (Z.to_nat (hi - lo)) (drop (Z.to_nat lo) (elems s)).
Proof.
  unfold slice_range. case_bool_decide as Hb; [|done].
  intros [= <-]. repeat split; try lia.
  destruct s; simpl; [done|]. by rewrite drop_nil, take_nil.
Qed.

(** ** The event trace *)

Lemma fetches_app w1 w2 : fetches (w1 ++ w2) = fetches w1 ++ fetches w2.
Proof. unfold fetches. by rewrite omap_app. Qed.

Lemma opened_app w1 w2 : opened (w1 ++ w2) = opened w1 ++ opened w2.
Proof. unfold opened. by rewrite omap_app. Qed.

Lemma closed_app w1 w2 : closed (w1 ++ w2) = closed w1 ++ closed w2.
Proof. unfold closed. by rewrite omap_app. Qed.

Lemma Fetch_fetches (f : SeekFetcher Ref) (r : Ref) w :
  fetches (Fetch f r w).2 = fetches w ++ [r].
Proof. unfold Fetch. destruct (f r); simpl; by rewrite fetches_app. Qed.

Lemma Fetch_inr (f : SeekFetcher Ref) (r : Ref) w bytes :
  f r = inr bytes ->
  Fetch f r w = (inr {| handle := length w; data := bytes |},
                 w ++ [EvFetch r (Some (length w))]).
Proof. unfold Fetch. by intros ->. Qed.

Lemma Fetch_inl (f : SeekFetcher Ref) (r : Ref) w e :
  f r = inl e -> Fetch f r w = (inl e, w ++ [EvFetch r None]).
Proof. unfold Fetch. by intros ->. Qed.

Lemma filter_ext_elem {A} (P Q : A -> Prop)
    `{!forall x, Decision (P x)} `{!forall x, Decision (Q x)} (l : list A) :
  (forall x, x ∈ l -> P x <-> Q x) -> filter P l = filter Q l.
Proof.
  induction l as [|x l IH]; intros HPQ; [done|].
  rewrite !filter_cons.
  rewrite IH by (intros y Hy; apply HPQ; by right).
  assert (P x <-> Q x) by (apply HPQ; by left).
  repeat case_decide; tauto.
Qed.

(** A stream that is fetched and then closed leaves the open streams
    as they were. *)
Lemma open_streams_fetch_close w (r : Ref) :
  trace_ok w ->
  open_streams (w ++ [EvFetch r (Some (length w))] ++ [EvClose (length w)]) =
  open_streams w.
Proof.
  intros Hok. unfold open_streams.
  rewrite !opened_app, !closed_app. simpl.
  rewrite filter_app.
  rewrite (filter_cons_False (fun h => h ∉ closed w ++ [length w]) (length w))
    by (intros Hn; apply Hn; set_solver).
  rewrite filter_nil, app_nil_r.
  apply filter_ext_elem. intros h Hh.
  assert (h < length w)%nat by (apply Hok; by left).
  assert (h <> length w) by lia.
  rewrite elem_of_app, list_elem_of_singleton. tauto.
Qed.

(** A stream that is fetched and not closed is open afterwards. *)
Lemma open_streams_fetch w (r : Ref) :
  trace_ok w ->
  length w ∈ open_streams (w ++ [EvFetch r (Some (length w))]).
Proof.
  intros Hok. unfold open_streams.
  rewrite opened_app, closed_app. simpl. rewrite app_nil_r.
  apply list_elem_of_filter. split.
  - intros Hin. assert (length w < length w)%nat by (apply Hok; by right). lia.
  - set_solver.
Qed.

(** [trace_ok] is kept by what the code does with the fetcher. *)
Lemma Fetch_trace_ok (f : SeekFetcher Ref) (r : Ref) w :
  trace_ok w -> trace_ok (Fetch f r w).2.
Proof.
  intros Hok h. unfold Fetch.
  destruct (f r); simpl; rewrite opened_app, closed_app, length_app; simpl;
    rewrite !app_nil_r; rewrite ?elem_of_app, ?list_elem_of_singleton.
  - intros [H|H]; assert (h < length w)%nat by (apply Hok; auto); lia.
  - intros [[H|H]|H].
    + assert (h < length w)%nat by (apply Hok; auto). lia.
    + lia.
    + assert (h < length w)%nat by (apply Hok; auto). lia.
Qed.

Lemma Close_trace_ok (rsc : stream) w :
  trace_ok w -> (handle rsc < length w)%nat -> trace_ok (Close rsc w).
Proof.
  intros Hok Hlt h. unfold Close.
  rewrite opened_app, closed_app, length_app. simpl.
  rewrite app_nil_r, elem_of_app, list_elem_of_singleton.
  intros [H|[H| ->]]; try (assert (h < length w)%nat by (apply Hok; auto)); lia.
Qed.

Lemma StaticSet_trace_ok dr w : trace_ok w -> trace_ok (StaticSet dr w).2.
Proof.
  intros Hok. unfold Schema.StaticSet.
  destruct (staticSet dr); simpl; [done|].
  destruct (Valid _); simpl; [|done].
  pose proof (Fetch_trace_ok (fetcher dr) (Entries (ss dr)) w Hok) as Hf.
  destruct (Fetch _ _ _) as [[e|rsc] w1]; simpl in *; [done|].
  destruct (parseSuperset _) as [e|ss1]; simpl; [done|].
  by destruct (String.eqb _ _).
Qed.

(** ** setFromBlobRef and NewDirReader *)

(** setFromBlobRef calls Fetch at most once, on [blobRef], and closes
    the stream it got on every path: the open streams are those from
    before the call. *)
Lemma setFromBlobRef_effects (ss0 : superset Ref) (f : SeekFetcher Ref) (blobRef : Ref) w :
  let '(_, _, w') := setFromBlobRef ss0 f blobRef w in
  (fetches w' = fetches w \/ fetches w' = fetches w ++ [blobRef]) /\
  (trace_ok w -> open_streams w' = open_streams w).
Proof.
  unfold Schema.setFromBlobRef.
  destruct (Valid blobRef); simpl; [|by auto].
  destruct (f blobRef) as [e|bytes] eqn:Hf.
  - rewrite (Fetch_inl _ _ _ _ Hf). split.
    + right. by rewrite fetches_app.
    + intros _. unfold open_streams. rewrite opened_app, closed_app. simpl.
      by rewrite !app_nil_r.
  - rewrite (Fetch_inr _ _ _ _ Hf). simpl.
    destruct (jsonDecode bytes _) as [[e|] ss1]; unfold Close; simpl.
    all: split; [right; rewrite !fetches_app; simpl; by rewrite app_nil_r
                |intros Hok; rewrite <- app_assoc; by apply open_streams_fetch_close].
Qed.

(** ** StaticSet *)

Lemma StaticSet_cached dr w (s : list Ref) :
  staticSet dr = Some s -> StaticSet dr w = ((Some s, None), dr, w).
Proof. unfold Schema.StaticSet. by intros ->. Qed.

(** The member loop when every member is valid. *)
Lemma StaticSet_members_valid (members : list Ref) dr :
  forallb Valid members = true ->
  StaticSet_members members dr =
    ((extend (staticSet dr) members, None),
     set_staticSet (extend (staticSet dr) members) dr).
Proof.
  revert dr. induction members as [|m ms IH]; intros dr Hv; simpl in *.
  - by destruct dr.
  - apply andb_true_iff in Hv as [Hm Hms]. rewrite Hm. simpl.
    rewrite (IH _ Hms). simpl. by rewrite extend_append.
Qed.

(** The member loop when it meets an invalid member: the valid members
    before it have been appended to [dr.staticSet] when it returns. *)
Lemma StaticSet_members_invalid (good rest : list Ref) (bad : Ref) dr :
  forallb Valid good = true -> Valid bad = false ->
  StaticSet_members (good ++ bad :: rest) dr =
    ((None, Some ErrInvalidMember), set_staticSet (extend (staticSet dr) good) dr).
Proof.
  revert dr. induction good as [|m ms IH]; intros dr Hv Hb; simpl in *.
  - rewrite Hb. simpl. by destruct dr.
  - apply andb_true_iff in Hv as [Hm Hms]. rewrite Hm. simpl.
    rewrite (IH _ Hms Hb). simpl. by rewrite extend_append.
Qed.

(** StaticSet on a reader with nothing cached, when the fetch and the
    decoding succeed and the type is right: the member loop decides. *)
Lemma StaticSet_resolves dr w bytes (ss1 : superset Ref) :
  staticSet dr = None ->
  Valid (Entries (ss dr)) = true ->
  fetcher dr (Entries (ss dr)) = inr bytes ->
  parseSuperset bytes = inr ss1 ->
  Type_ ss1 = "static-set" ->
  StaticSet dr w =
    (StaticSet_members (Members ss1) dr,
     w ++ [EvFetch (Entries (ss dr)) (Some (length w))]).
Proof.
  intros Hnil Hv Hf Hp Ht. unfold Schema.StaticSet.
  rewrite Hnil, Hv. simpl. rewrite (Fetch_inr _ _ _ _ Hf). simpl.
  rewrite Hp, Ht. done.
Qed.

(** StaticSet never touches the fetcher, the schema or the cursor. *)
Lemma StaticSet_members_frame (members : list Ref) dr :
  let dr' := (StaticSet_members members dr).2 in
  fetcher dr' = fetcher dr /\ ss dr' = ss dr /\ current dr' = current dr.
Proof.
  revert dr. induction members as [|m ms IH]; intros dr; simpl; [done|].
  destruct (Valid m); simpl; [|done].
  specialize (IH (set_staticSet (append (staticSet dr) m) dr)). simpl in IH. done.
Qed.

Lemma StaticSet_frame dr w :
  let dr' := (StaticSet dr w).1.2 in
  fetcher dr' = fetcher dr /\ ss dr' = ss dr /\ current dr' = current dr.
Proof.
  unfold Schema.StaticSet.
  destruct (staticSet dr); simpl; [done|].
  destruct (Valid _); simpl; [|done].
  destruct (Fetch _ _ _) as [[e|rsc] w1]; simpl; [done|].
  destruct (parseSuperset _) as [e|ss1]; simpl; [done|].
  destruct (String.eqb _ _); simpl; [|done].
  apply StaticSet_members_frame.
Qed.

(** A successful StaticSet returns what it leaves in [dr.staticSet]. *)
Lemma StaticSet_members_returns (members : list Ref) dr sts dr' :
  StaticSet_members members dr = ((sts, None), dr') -> staticSet dr' = sts.
Proof.
  revert dr. induction members as [|m ms IH]; intros dr; simpl.
  - by intros [= <- <-].
  - destruct (Valid m); simpl; [|done]. apply IH.
Qed.

Lemma StaticSet_returns dr w sts dr' w' :
  StaticSet dr w = ((sts, None), dr', w') -> staticSet dr' = sts.
Proof.
  unfold Schema.StaticSet.
  destruct (staticSet dr) eqn:Hs; simpl; [by intros [= <- <- <-]|].
  destruct (Valid _); simpl; [|done].
  destruct (Fetch _ _ _) as [[e|rsc] w1]; simpl; [done|].
  destruct (parseSuperset _) as [e|ss1]; simpl; [done|].
  destruct (String.eqb _ _); simpl; [|done].
  destruct (StaticSet_members _ _) as [[sts1 [e|]] dr1] eqn:Hm; [done|].
  intros [= <- <- <-]. by apply StaticSet_members_returns in Hm.
Qed.

Lemma StaticSet_members_success (members : list Ref) dr sts dr' :
  StaticSet_members members dr = ((sts, None), dr') -> forallb Valid members = true.
Proof.
  revert dr. induction members as [|m ms IH]; intros dr; simpl; [done|].
  destruct (Valid m); simpl; [|done]. apply IH.
Qed.

(** A successful StaticSet returns the same sequence when it is called
    again, from the cache or, for an empty set, from a second fetch. *)
Lemma StaticSet_stable dr w sts dr' w' :
  StaticSet dr w = ((sts, None), dr', w') ->
  exists w'', StaticSet dr' w' = ((sts, None), dr', w'').
Proof.
  intros H. pose proof (StaticSet_returns _ _ _ _ _ H) as Hret.
  destruct sts as [s|].
  { exists w'. by apply StaticSet_cached. }
  revert H. unfold Schema.StaticSet.
  destruct (staticSet dr) eqn:Hs; simpl; [done|].
  destruct (Valid _) eqn:Hv; simpl; [|done].
  destruct (fetcher dr (Entries (ss dr))) as [e|bytes] eqn:Hf.
  { rewrite (Fetch_inl _ _ _ _ Hf). done. }
  rewrite (Fetch_inr _ _ _ _ Hf). simpl.
  destruct (parseSuperset _) as [e|ss1] eqn:Hp; simpl; [done|].
  destruct (String.eqb _ _) eqn:Ht; simpl; [|done].
  destruct (StaticSet_members _ _) as [[sts1 [e|]] dr1] eqn:Hm; [done|].
  intros [= -> -> <-].
  pose proof (StaticSet_members_success _ _ _ _ Hm) as Hall.
  rewrite (StaticSet_members_valid _ _ Hall) in Hm.
  rewrite Hs in Hm. injection Hm as Hext Hdr.
  assert (dr' = dr) as ->.
  { rewrite <- Hdr, Hext. destruct dr; simpl in *; by subst. }
  rewrite Hs, Hv. simpl. rewrite (Fetch_inr _ _ _ _ Hf). simpl.
  rewrite Hp, Ht. simpl.
  rewrite (StaticSet_members_valid _ _ Hall), Hs, Hext.
  eexists. f_equal. f_equal. destruct dr; simpl in *; by subst.
Qed.

(** Once StaticSet has returned a non-nil sequence, the next call
    returns it from the cache and fetches nothing. *)
Lemma StaticSet_idempotent_nonempty dr w (s : list Ref) dr' w' :
  StaticSet dr w = ((Some s, None), dr', w') ->
  StaticSet dr' w' = ((Some s, None), dr', w').
Proof. intros H. apply StaticSet_cached. by apply StaticSet_returns in H. Qed.

(** C1 (what the code does instead).  A static-set whose members start
    with valid refs [good] and then hold an invalid one: StaticSet fails
    with the invalid-member error, but the loop has already appended
    [good] to [dr.staticSet].  The next call finds the field non-nil: it
    fetches nothing, validates nothing, and returns the partial sequence
    [good] with a nil error. *)
Theorem StaticSet_invalid_member_partial_cache dr w bytes (ss1 : superset Ref)
    (good rest : list Ref) (bad : Ref) :
  staticSet dr = None ->
  Valid (Entries (ss dr)) = true ->
  fetcher dr (Entries (ss dr)) = inr bytes ->
  parseSuperset bytes = inr ss1 ->
  Type_ ss1 = "static-set" ->
  Members ss1 = good ++ bad :: rest ->
  good <> [] ->
  forallb Valid good = true ->
  Valid bad = false ->
  exists dr' w',
    StaticSet dr w = ((None, Some ErrInvalidMember), dr', w') /\
    staticSet dr' = Some good /\
    StaticSet dr' w' = ((Some good, None), dr', w').
Proof.
  intros Hnil Hv Hf Hp Ht Hm Hne Hgood Hbad.
  rewrite (StaticSet_resolves _ _ _ _ Hnil Hv Hf Hp Ht), Hm.
  rewrite (StaticSet_members_invalid _ _ _ _ Hgood Hbad), Hnil.
  assert (extend (None : slice Ref) good = Some good) as Hext
    by (destruct good; [done | reflexivity]).
  rewrite Hext.
  eexists _, _. split; [reflexivity|]. split; [reflexivity|].
  by apply StaticSet_cached.
Qed.

(** C4 (what the code does instead).  For a static-set without members
    the loop appends nothing, [dr.staticSet] stays nil, and StaticSet
    returns a nil sequence and a nil error.  The second call finds the
    field nil and fetches the static-set blob a second time. *)
Theorem StaticSet_empty_set_fetched_again dr w bytes (ss1 : superset Ref) :
  staticSet dr = None ->
  Valid (Entries (ss dr)) = true ->
  fetcher dr (Entries (ss dr)) = inr bytes ->
  parseSuperset bytes = inr ss1 ->
  Type_ ss1 = "static-set" ->
  Members ss1 = [] ->
  exists w1 w2,
    StaticSet dr w = ((None, None), dr, w1) /\
    StaticSet dr w1 = ((None, None), dr, w2) /\
    fetches w2 = fetches w ++ [Entries (ss dr); Entries (ss dr)].
Proof.
  intros Hnil Hv Hf Hp Ht Hm.
  assert (forall w0, StaticSet dr w0 =
            ((None, None), dr, w0 ++ [EvFetch (Entries (ss dr)) (Some (length w0))])) as Hcall.
  { intros w0. rewrite (StaticSet_resolves _ _ _ _ Hnil Hv Hf Hp Ht), Hm. simpl.
    by rewrite Hnil. }
  eexists _, _. split; [apply Hcall|]. split; [apply Hcall|].
  rewrite !fetches_app. simpl. by rewrite <- app_assoc.
Qed.

(** C9 (what the code does instead).  StaticSet never closes the stream
    its Fetch returned: whenever that Fetch succeeds, the stream is
    still open when StaticSet returns, whatever the exit path
    (decode failure, wrong type, invalid member, success). *)
Theorem StaticSet_leaves_stream_open dr w bytes :
  trace_ok w ->
  staticSet dr = None ->
  Valid (Entries (ss dr)) = true ->
  fetcher dr (Entries (ss dr)) = inr bytes ->
  length w ∈ open_streams (StaticSet dr w).2.
Proof.
  intros Hok Hnil Hv Hf. unfold Schema.StaticSet.
  rewrite Hnil, Hv. simpl. rewrite (Fetch_inr _ _ _ _ Hf). simpl.
  destruct (parseSuperset bytes) as [e|ss1]; simpl;
    [by apply open_streams_fetch|].
  destruct (String.eqb _ _); simpl; by apply open_streams_fetch.
Qed.

(** C8.  NewDirReader calls Fetch at most once, and only on the
    directory ref; a reader it returns has no static-set yet and its
    cursor at 0.  When the directory blob is fetched and decoded and its
    type is not "directory", NewDirReader fails with the
    expected-directory error that names the ref and the type found. *)
Theorem NewDirReader_not_directory (f : SeekFetcher Ref) (dirBlobRef : Ref) w :
  (forall r w', NewDirReader f dirBlobRef w = (r, w') ->
     (fetches w' = fetches w \/ fetches w' = fetches w ++ [dirBlobRef]) /\
     (forall dr, r = inr dr -> staticSet dr = None /\ current dr = 0)) /\
  (forall bytes (ss1 : superset Ref),
     Valid dirBlobRef = true ->
     f dirBlobRef = inr bytes ->
     jsonDecode bytes (set_BlobRef dirBlobRef (new_superset zeroRef)) = (None, ss1) ->
     Type_ ss1 <> "directory" ->
     exists w', NewDirReader f dirBlobRef w =
                  (inl (ErrExpectedDirectory dirBlobRef (Type_ ss1)), w') /\
                fetches w' = fetches w ++ [dirBlobRef]).
Proof.
  split.
  - intros r w'. unfold Schema.NewDirReader.
    pose proof (setFromBlobRef_effects (new_superset zeroRef) f dirBlobRef w) as He.
    destruct (Schema.setFromBlobRef _ _ _ _ _ _) as [[[e|] ss1] w1].
    + intros [= <- <-]. split; [apply He | done].
    + destruct (String.eqb (Type_ ss1) "directory") eqn:Ht; simpl.
      * unfold superset_NewDirReader. rewrite Ht. simpl.
        intros [= <- <-]. split; [apply He|]. by intros dr [= <-].
      * intros [= <- <-]. split; [apply He | done].
  - intros bytes ss1 Hv Hf Hd Ht.
    unfold Schema.NewDirReader, Schema.setFromBlobRef.
    rewrite Hv. simpl. rewrite (Fetch_inr _ _ _ _ Hf). simpl. rewrite Hd.
    apply String.eqb_neq in Ht. rewrite Ht. simpl.
    eexists. split; [reflexivity|].
    unfold Close. rewrite !fetches_app. simpl. by rewrite app_nil_r.
Qed.

(** ** The collecting loop under every schedule *)

Section Schedules.

Variable f : SeekFetcher Ref.
Variable outer : option (error Ref).
Variable range : list Ref.

Implicit Types (st : collector Ref DirectoryEntry).

(** What holds of every state a schedule can reach from [kick_off range]:
    once a return statement has run, it returned what the sequential
    reading of the loop returns; before that, every channel from [next]
    on is empty with its goroutine still to run, or holds that
    goroutine's result, and the entries collected so far are those of
    the members before [next]. *)
Definition reachable_inv st : Prop :=
  let final := collect outer (resolve f <$> range) None in
  match ret st with
  | Some x => x = final
  | None =>
      length (cs st) = length range /\
      (next st <= length range)%nat /\
      (forall i r, (next st <= i)%nat -> range !! i = Some r ->
         cs st !! i = Some (Running r) \/ cs st !! i = Some (Sent (resolve f r))) /\
      collect outer (resolve f <$> drop (next st) range) (entries st) = final
  end.

(** Every channel below [j] that the loop has not read yet holds its result. *)
Definition sent_below (j : nat) st : Prop :=
  forall i r, (next st <= i < j)%nat -> range !! i = Some r ->
    cs st !! i = Some (Sent (resolve f r)).

Lemma reachable_kick_off : reachable_inv (kick_off range).
Proof.
  unfold reachable_inv, kick_off. simpl.
  split; [by rewrite length_fmap|]. split; [lia|]. split; [|done].
  intros i r _ Hr. left. by rewrite list_lookup_fmap, Hr.
Qed.

Lemma reachable_run_goroutine i st :
  reachable_inv st -> reachable_inv (run_goroutine NewDirectoryEntryFromBlobRef f i st).
Proof.
  unfold reachable_inv, run_goroutine.
  destruct (cs st !! i) as [[entRef| |]|] eqn:Hi; try done.
  destruct (NewDirectoryEntryFromBlobRef f entRef) as [entry e] eqn:Hres. simpl.
  destruct (ret st); [done|].
  intros (Hlen & Hnext & Hcs & Hcol).
  split; [by rewrite length_insert|]. split; [done|]. split; [|done].
  intros j r Hj Hr. destruct (decide (i = j)) as [->|Hne].
  - right. rewrite list_lookup_insert_eq by (apply lookup_lt_is_Some; eauto).
    destruct (Hcs j r Hj Hr) as [H|H]; rewrite H in Hi; [|done].
    injection Hi as ->. unfold Schema.resolve. by rewrite Hres.
  - rewrite list_lookup_insert_ne by done. by apply Hcs.
Qed.

Lemma reachable_run_main st :
  reachable_inv st -> reachable_inv (run_main outer st).
Proof.
  unfold reachable_inv, run_main.
  destruct (ret st) eqn:Hret; [by rewrite Hret|].
  intros (Hlen & Hnext & Hcs & Hcol).
  destruct (cs st !! next st) as [[entRef|r0|]|] eqn:Hn; simpl; rewrite ?Hret; try done.
  - assert (is_Some (range !! next st)) as [r Hr].
    { apply lookup_lt_is_Some. rewrite <- Hlen. apply lookup_lt_is_Some; eauto. }
    destruct (Hcs _ r (le_n _) Hr) as [H|H]; rewrite H in Hn; [done|].
    injection Hn as <-.
    rewrite (drop_S _ _ _ Hr) in Hcol. simpl in Hcol.
    destruct (err (resolve f r)) eqn:He; simpl; [done|].
    split; [by rewrite length_insert|].
    split; [apply lookup_lt_Some in Hr; lia|]. split; [|done].
    intros j r' Hj Hr'. rewrite list_lookup_insert_ne by lia. apply Hcs; [lia|done].
  - apply lookup_ge_None in Hn.
    rewrite drop_ge in Hcol by lia. done.
Qed.

Lemma reachable_step a st :
  reachable_inv st -> reachable_inv (step f outer a st).
Proof.
  destruct a; simpl; [apply reachable_run_goroutine | apply reachable_run_main].
Qed.

Lemma reachable_run sched st :
  reachable_inv st -> reachable_inv (run f outer sched st).
Proof.
  unfold Schema.run. revert st.
  induction sched as [|a sched IH]; intros st Hst; simpl; [done|].
  apply IH. by apply reachable_step.
Qed.

Lemma run_goroutine_ret j st :
  ret (run_goroutine NewDirectoryEntryFromBlobRef f j st) = ret st.
Proof.
  unfold run_goroutine. destruct (cs st !! j) as [[?| |]|]; try done.
  by destruct (NewDirectoryEntryFromBlobRef f entRef).
Qed.

(** A return statement runs once. *)
Lemma run_after_return sched st :
  ret st <> None -> ret (run f outer sched st) = ret st.
Proof.
  unfold Schema.run. revert st.
  induction sched as [|a sched IH]; intros st Hst; simpl; [done|].
  assert (ret (step f outer a st) = ret st) as Heq.
  { destruct a; simpl; [apply run_goroutine_ret|].
    unfold run_main. destruct (ret st) eqn:E; [by rewrite E | done]. }
  rewrite IH; [done | by rewrite Heq].
Qed.

(** Running goroutine [j] fills channel [j]. *)
Lemma sent_below_run_goroutine j st :
  reachable_inv st -> ret st = None -> sent_below j st ->
  sent_below (S j) (run_goroutine NewDirectoryEntryFromBlobRef f j st).
Proof.
  unfold reachable_inv, sent_below, run_goroutine.
  intros Hinv Hret Hbelow. rewrite Hret in Hinv.
  destruct Hinv as (Hlen & Hnext & Hcs & _).
  destruct (cs st !! j) as [[entRef|r0|]|] eqn:Hj.
  2-4: intros i r Hi Hr; destruct (decide (i = j)) as [->|Hne];
       [destruct (Hcs j r ltac:(lia) Hr) as [H|H]; rewrite H in Hj; by simplify_eq
       |apply Hbelow; [lia|done]].
  destruct (NewDirectoryEntryFromBlobRef f entRef) as [entry e] eqn:Hres. simpl.
  intros i r Hi Hr. destruct (decide (i = j)) as [->|Hne].
  - rewrite list_lookup_insert_eq by (apply lookup_lt_is_Some; eauto).
    destruct (Hcs j r ltac:(lia) Hr) as [H|H]; rewrite H in Hj; [|done].
    injection Hj as ->. unfold Schema.resolve. by rewrite Hres.
  - rewrite list_lookup_insert_ne by done. apply Hbelow; [lia|done].
Qed.

(** After goroutines [0 .. k-1] have had their turn, every channel
    below [k] is filled. *)
Lemma sent_below_go_phase k st :
  reachable_inv st -> ret st = None ->
  let st' := run f outer (Go <$> seq 0 k) st in
  ret st' = None /\ sent_below k st'.
Proof.
  intros Hinv Hret. induction k as [|k [IHret IH]].
  - simpl. split; [done|]. intros i r Hi. lia.
  - cbv zeta. rewrite seq_S, fmap_app. unfold Schema.run in *. rewrite foldl_app. simpl.
    split; [by rewrite run_goroutine_ret|].
    apply sent_below_run_goroutine; [|done|done].
    by apply (reachable_run (Go <$> seq 0 k)).
Qed.

(** With every channel filled, each turn of the loop either returns or
    moves on to the next channel. *)
Lemma main_phase m st :
  reachable_inv st -> sent_below (length range) st ->
  (length range < next st + m)%nat ->
  ret (run f outer (replicate m Main) st) <> None.
Proof.
  revert st. induction m as [|m IH]; intros st Hinv Hsent Hm.
  - simpl. unfold reachable_inv in Hinv. destruct (ret st); [done|]. lia.
  - change (ret (run f outer (replicate m Main) (run_main outer st)) <> None).
    pose proof (reachable_run_main _ Hinv) as Hinv'.
    destruct (ret (run_main outer st)) eqn:Hret'.
    { rewrite run_after_return; by rewrite Hret'. }
    assert (ret st = None) as Hret.
    { revert Hret'. unfold run_main. destruct (ret st) eqn:E; [by rewrite E | done]. }
    unfold reachable_inv in Hinv. rewrite Hret in Hinv.
    destruct Hinv as (Hlen & Hnext & Hcs & _).
    assert ((next st < length range)%nat ->
            exists r, range !! next st = Some r /\
                      cs st !! next st = Some (Sent (resolve f r))) as Hhead.
    { intros Hlt. destruct (lookup_lt_is_Some_2 range (next st) Hlt) as [r Hr].
      exists r. split; [done|]. apply Hsent; [lia|done]. }
    revert Hret' Hinv'. unfold run_main. rewrite Hret.
    destruct (cs st !! next st) as [t|] eqn:Hn; [|done].
    destruct Hhead as (r & Hr & Ht).
    { rewrite <- Hlen. apply lookup_lt_is_Some; eauto. }
    injection Ht as ->.
    destruct (err (resolve f r)); [done|]. intros _ Hinv'.
    apply IH; [done| |simpl; lia].
    intros i r' Hi Hr'. simpl in *.
    rewrite list_lookup_insert_ne by lia. apply Hsent; [lia|done].
Qed.

(** Whatever the schedule, the loop returns, and it returns what the
    sequential reading of the loop gives on the members' results taken
    in member order. *)
Lemma run_returns (sched : list action) :
  ret (run f outer (sched ++ fair_tail (length range)) (kick_off range)) =
  Some (collect outer (resolve f <$> range) None).
Proof.
  set (st1 := run f outer sched (kick_off range)).
  assert (reachable_inv st1) as Hinv1 by apply reachable_run, reachable_kick_off.
  unfold fair_tail. unfold Schema.run. rewrite !foldl_app.
  fold (run f outer sched (kick_off range)). fold st1.
  fold (run f outer (Go <$> seq 0 (length range)) st1).
  set (st2 := run f outer (Go <$> seq 0 (length range)) st1).
  fold (run f outer (replicate (S (length range)) Main) st2).
  assert (reachable_inv st2) as Hinv2 by by apply reachable_run.
  set (st3 := run f outer (replicate (S (length range)) Main) st2).
  assert (reachable_inv st3) as Hinv3 by by apply reachable_run.
  assert (ret st3 <> None) as Hret3.
  { destruct (ret st1) eqn:Hret1.
    - unfold st3, st2. rewrite !run_after_return; rewrite ?run_after_return; by rewrite ?Hret1.
    - destruct (sent_below_go_phase (length range) st1 Hinv1 Hret1) as [_ Hsent].
      apply main_phase; [done|done|lia]. }
  unfold reachable_inv in Hinv3. destruct (ret st3); [by subst|done].
Qed.

End Schedules.

(** ** Readdir *)

Lemma collect_ok (outer : option (error Ref)) (rs : list (res Ref DirectoryEntry))
    (acc : slice DirectoryEntry) :
  Forall (fun r => err r = None) rs ->
  collect outer rs acc = (extend acc (ent <$> rs), None).
Proof.
  revert acc. induction rs as [|r rs IH]; intros acc Hall; simpl; [done|].
  inversion_clear Hall as [|? ? Hr Hrs]. rewrite Hr, (IH _ Hrs).
  by rewrite extend_append.
Qed.

Lemma collect_fail (outer : option (error Ref)) (rs : list (res Ref DirectoryEntry))
    (acc : slice DirectoryEntry) :
  Exists (fun r => err r <> None) rs ->
  collect outer rs acc = (None, Some (ErrCantCreateDirEntry outer)).
Proof.
  revert acc. induction rs as [|r rs IH]; intros acc Hex; simpl.
  - inversion Hex.
  - destruct (err r) eqn:Hr; [done|].
    inversion_clear Hex as [? ? H|? ? H]; [congruence | by apply IH].
Qed.

Lemma collect_cases (outer : option (error Ref)) (rs : list (res Ref DirectoryEntry))
    (acc : slice DirectoryEntry) :
  (Forall (fun r => err r = None) rs /\
   collect outer rs acc = (extend acc (ent <$> rs), None)) \/
  (Exists (fun r => err r <> None) rs /\
   collect outer rs acc = (None, Some (ErrCantCreateDirEntry outer))).
Proof.
  destruct (decide (Forall (fun r => err r = None) rs)) as [Hall|Hex].
  - left. split; [done | by apply collect_ok].
  - right. apply not_Forall_Exists in Hex; [|intros r; apply _].
    split; [done | by apply collect_fail].
Qed.

Lemma Exists_fmap_elem {A B} (g : A -> B) (P : B -> Prop) (l : list A) (x : A) :
  x ∈ l -> P (g x) -> Exists P (g <$> l).
Proof.
  intros Hin HP. apply list_elem_of_In in Hin.
  induction l as [|y l IH]; simpl in *; [done|].
  destruct Hin as [->|Hin]; [by apply Exists_cons_hd | by apply Exists_cons_tl, IH].
Qed.

Lemma resolve_ent (f : SeekFetcher Ref) (r : Ref) :
  ent (resolve f r) = (NewDirectoryEntryFromBlobRef f r).1.
Proof. unfold Schema.resolve. by destruct (NewDirectoryEntryFromBlobRef f r). Qed.

Lemma resolve_err (f : SeekFetcher Ref) (r : Ref) :
  err (resolve f r) = (NewDirectoryEntryFromBlobRef f r).2.
Proof. unfold Schema.resolve. by destruct (NewDirectoryEntryFromBlobRef f r). Qed.

(** Readdir once the static set is there and the range is inside it:
    it returns, under every schedule, what the loop read sequentially
    gives. *)
Lemma Readdir_returns sched n dr w sts dr1 w1 dr2 up outer (range : slice Ref) :
  StaticSet dr w = ((sts, None), dr1, w1) ->
  Readdir_range n dr1 sts = (dr2, up, outer) ->
  slice_range sts (current dr2) up = Some range ->
  Readdir sched n dr w =
    Returns (collect outer (resolve (fetcher dr2) <$> elems range) None, dr2, w1).
Proof.
  intros Hs Hr Hsl. unfold Schema.Readdir.
  rewrite Hs, Hr, Hsl. cbv zeta. by rewrite run_returns.
Qed.

(** The two ways Readdir returns. *)
Lemma Readdir_inv sched n dr w r dr' w' :
  Readdir sched n dr w = Returns (r, dr', w') ->
  (exists sts e, StaticSet dr w = ((sts, Some e), dr', w') /\
                 r = (None, Some (ErrCantGetStaticSet e))) \/
  (exists sts dr1 up outer (range : slice Ref),
     StaticSet dr w = ((sts, None), dr1, w') /\
     Readdir_range n dr1 sts = (dr', up, outer) /\
     slice_range sts (current dr') up = Some range /\
     r = collect outer (resolve (fetcher dr') <$> elems range) None).
Proof.
  unfold Schema.Readdir.
  destruct (StaticSet dr w) as [[[sts [e|]] dr1] w1] eqn:Hs.
  - intros [= <- <- <-]. left. by exists sts, e.
  - destruct (Readdir_range n dr1 sts) as [[dr2 up] outer] eqn:Hr.
    destruct (slice_range sts (current dr2) up) as [range|] eqn:Hsl; [|done].
    cbv zeta. rewrite run_returns. intros [= <- <- <-].
    right. by exists sts, dr1, up, outer, range.
Qed.

Lemma Readdir_range_outer n dr sts dr2 up outer :
  Readdir_range n dr sts = (dr2, up, outer) -> outer = None \/ outer = Some EOF.
Proof.
  unfold Readdir_range. repeat case_bool_decide; intros [= <- <- <-]; auto.
Qed.

(** In the paginated mode the reader is left as it is. *)
Lemma Readdir_range_paginated n dr sts dr2 up outer :
  0 < n -> Readdir_range n dr sts = (dr2, up, outer) -> dr2 = dr.
Proof.
  unfold Readdir_range. intros Hn.
  rewrite bool_decide_eq_false_2 by lia.
  by case_bool_decide; intros [= <- <- <-].
Qed.

(** The upper bound never exceeds the length when the cursor is inside
    the sequence. *)
Lemma Readdir_up_le_len n dr sts dr2 up outer :
  0 <= current dr <= len sts -> len sts <= int_max ->
  Readdir_range n dr sts = (dr2, up, outer) ->
  current dr2 <= up <= len sts.
Proof.
  unfold Readdir_range, int_sub, int_add. intros Hc Hl.
  rewrite (wrap_id (len sts - current dr)) by (unfold int_min, int_max in *; lia).
  repeat case_bool_decide; intros [= <- <- <-]; simpl; try lia.
  rewrite wrap_id by (unfold int_min, int_max in *; lia). lia.
Qed.

(** Readdir never blocks: every goroutine sends on a buffered channel of
    its own, so each receive of the loop is served. *)
Lemma Readdir_never_blocks sched n dr w : Readdir sched n dr w <> Blocks.
Proof.
  unfold Schema.Readdir.
  destruct (StaticSet dr w) as [[[sts [e|]] dr1] w1]; [done|].
  destruct (Readdir_range n dr1 sts) as [[dr2 up] outer].
  destruct (slice_range sts (current dr2) up) as [range|]; [|done].
  cbv zeta. by rewrite run_returns.
Qed.

(** With the cursor inside the sequence, which is where NewDirReader
    and Readdir leave it, Readdir does not panic either. *)
Lemma Readdir_no_panic sched n dr w :
  0 <= current dr <= len (StaticSet dr w).1.1.1 ->
  len (StaticSet dr w).1.1.1 <= int_max ->
  Readdir sched n dr w <> Panics.
Proof.
  unfold Schema.Readdir. pose proof (StaticSet_frame dr w) as (_ & _ & Hcur).
  destruct (StaticSet dr w) as [[[sts [e|]] dr1] w1]; simpl in *; [done|].
  intros Hc Hl. rewrite <- Hcur in Hc.
  destruct (Readdir_range n dr1 sts) as [[dr2 up] outer] eqn:Hr.
  pose proof (Readdir_up_le_len _ _ _ _ _ _ Hc Hl Hr) as Hup.
  assert (0 <= current dr2) as Hlo.
  { revert Hr. unfold Readdir_range.
    repeat case_bool_decide; intros [= <- <- <-]; simpl; lia. }
  unfold slice_range. rewrite bool_decide_eq_true_2 by lia.
  cbv zeta. by rewrite run_returns.
Qed.

(** C2 (what the code does instead).  When the task of some member of
    the range reports an error [e], Readdir returns a nil entry sequence
    and a non-nil error, and nothing of the tasks that succeeded.  But
    line 158 formats the function's result variable [err], not
    [res.err]: the error returned carries nil, or io.EOF when the range
    was clamped, and never the task's error [e]. *)
Theorem Readdir_task_error_not_reported sched n dr w sts dr1 w1 dr2 up outer
    (range : slice Ref) (r : Ref) (e : error Ref) :
  StaticSet dr w = ((sts, None), dr1, w1) ->
  Readdir_range n dr1 sts = (dr2, up, outer) ->
  slice_range sts (current dr2) up = Some range ->
  r ∈ elems range ->
  (NewDirectoryEntryFromBlobRef (fetcher dr2) r).2 = Some e ->
  Readdir sched n dr w =
    Returns ((None, Some (ErrCantCreateDirEntry outer)), dr2, w1) /\
  (outer = None \/ outer = Some EOF).
Proof.
  intros Hs Hr Hsl Hin He. split; [|by eapply Readdir_range_outer].
  rewrite (Readdir_returns _ _ _ _ _ _ _ _ _ _ _ Hs Hr Hsl).
  rewrite collect_fail; [done|].
  apply (Exists_fmap_elem _ _ _ r); [done|].
  by rewrite resolve_err, He.
Qed.

(** C3 (what the code does instead).  With [n > 0] and fewer than [n]
    members left, the range is clamped to the end of the static set and
    [err] is set to io.EOF; but when every task succeeds line 162
    returns a nil error with the entries: the end-of-sequence status
    does not reach the caller. *)
Theorem Readdir_clamped_returns_nil_error sched n dr w sts dr1 w1 :
  StaticSet dr w = ((sts, None), dr1, w1) ->
  0 < n ->
  0 <= current dr1 <= len sts ->
  len sts <= int_max ->
  current dr1 + n > len sts ->
  (forall r, r ∈ drop (Z.to_nat (current dr1)) (elems sts) ->
     (NewDirectoryEntryFromBlobRef (fetcher dr1) r).2 = None) ->
  exists ents,
    Readdir sched n dr w = Returns ((ents, None), dr1, w1) /\
    elems ents =
      (fun r => (NewDirectoryEntryFromBlobRef (fetcher dr1) r).1) <$>
        drop (Z.to_nat (current dr1)) (elems sts).
Proof.
  intros Hs Hn Hc Hl Hclamp Hok.
  assert (Readdir_range n dr1 sts = (dr1, len sts, Some EOF)) as Hr.
  { unfold Readdir_range, int_sub.
    rewrite wrap_id by (unfold int_min, int_max in *; lia).
    rewrite bool_decide_eq_false_2 by lia.
    by rewrite bool_decide_eq_true_2 by lia. }
  destruct (slice_range sts (current dr1) (len sts)) as [range|] eqn:Hsl.
  2: { unfold slice_range in Hsl. by rewrite bool_decide_eq_true_2 in Hsl by lia. }
  apply slice_range_elems in Hsl as Hrange. destruct Hrange as (_ & _ & _ & Hrange).
  rewrite take_ge in Hrange by (rewrite length_drop; unfold len; lia).
  rewrite (Readdir_returns _ _ _ _ _ _ _ _ _ _ _ Hs Hr Hsl), Hrange.
  rewrite collect_ok.
  - eexists. split; [reflexivity|].
    rewrite elems_extend. simpl. rewrite <- list_fmap_compose.
    apply list_fmap_ext. intros i r _. simpl. apply resolve_ent.
  - apply Forall_fmap, Forall_forall. intros r Hin. simpl.
    rewrite resolve_err. by apply Hok.
Qed.

(** C5.  A paginated Readdir ([n > 0]) that returns a nil error leaves
    the cursor where it was, and the same call made again right after,
    under any schedule, returns the same entries: the same range is
    resolved again. *)
Theorem Readdir_paginated_cursor_unchanged sched n dr w
    (ents : slice DirectoryEntry) dr' w' :
  0 < n ->
  Readdir sched n dr w = Returns ((ents, None), dr', w') ->
  current dr' = current dr /\
  forall sched', exists w'',
    Readdir sched' n dr' w' = Returns ((ents, None), dr', w'').
Proof.
  intros Hn H. apply Readdir_inv in H as [(sts & e & _ & [=])|H].
  destruct H as (sts & dr1 & up & outer & range & Hs & Hr & Hsl & Hcol).
  pose proof (Readdir_range_paginated _ _ _ _ _ _ Hn Hr) as ->.
  split.
  - pose proof (StaticSet_frame dr w) as Hf. rewrite Hs in Hf. simpl in Hf. tauto.
  - intros sched'. destruct (StaticSet_stable _ _ _ _ _ Hs) as [w'' Hs'].
    exists w''. rewrite (Readdir_returns _ _ _ _ _ _ _ _ _ _ _ Hs' Hr Hsl).
    by rewrite <- Hcol.
Qed.

(** C6.  A Readdir that returns a nil error returns one entry per
    member of the resolved range, the i-th entry being the one
    NewDirectoryEntryFromBlobRef gives for the i-th member, and it
    returns the same under every schedule of the goroutines. *)
Theorem Readdir_entries_in_member_order sched n dr w
    (ents : slice DirectoryEntry) dr' w' :
  Readdir sched n dr w = Returns ((ents, None), dr', w') ->
  (exists sts dr1 up outer (range : slice Ref),
     StaticSet dr w = ((sts, None), dr1, w') /\
     Readdir_range n dr1 sts = (dr', up, outer) /\
     slice_range sts (current dr') up = Some range /\
     length (elems ents) = length (elems range) /\
     elems ents =
       (fun r => (NewDirectoryEntryFromBlobRef (fetcher dr') r).1) <$> elems range) /\
  forall sched', Readdir sched' n dr w = Returns ((ents, None), dr', w').
Proof.
  intros H. apply Readdir_inv in H as [(sts & e & _ & [=])|H].
  destruct H as (sts & dr1 & up & outer & range & Hs & Hr & Hsl & Hcol).
  split.
  - assert (elems ents =
      (fun r => (NewDirectoryEntryFromBlobRef (fetcher dr') r).1) <$> elems range) as Hents.
    { destruct (collect_cases outer (resolve (fetcher dr') <$> elems range) None)
        as [[_ Hc]|[_ Hc]]; rewrite Hc in Hcol; [|done].
      injection Hcol as ->. rewrite elems_extend. simpl.
      rewrite <- list_fmap_compose. apply list_fmap_ext. intros i r _. apply resolve_ent. }
    exists sts, dr1, up, outer, range. repeat split; try done.
    by rewrite Hents, length_fmap.
  - intros sched'. rewrite (Readdir_returns _ _ _ _ _ _ _ _ _ _ _ Hs Hr Hsl).
    by rewrite <- Hcol.
Qed.

(** C7.  With [n <= 0], on a reader whose static set resolves, Readdir
    returns with the cursor at 0, whatever it was, and the range it
    resolves is the whole static set: when every member resolves the
    entries are those of all members in order, and when one fails the
    call fails as a whole. *)
Theorem Readdir_all_resets_cursor sched n dr w sts dr1 w1 :
  n <= 0 ->
  StaticSet dr w = ((sts, None), dr1, w1) ->
  exists r,
    Readdir sched n dr w = Returns (r, set_current 0 dr1, w1) /\
    current (set_current 0 dr1) = 0 /\
    ((forall m, m ∈ elems sts ->
        (NewDirectoryEntryFromBlobRef (fetcher dr1) m).2 = None) ->
     r.2 = None /\
     elems r.1 =
       (fun m => (NewDirectoryEntryFromBlobRef (fetcher dr1) m).1) <$> elems sts) /\
    ((exists m, m ∈ elems sts /\
        (NewDirectoryEntryFromBlobRef (fetcher dr1) m).2 <> None) ->
     r = (None, Some (ErrCantCreateDirEntry None))).
Proof.
  intros Hn Hs.
  assert (Readdir_range n dr1 sts = (set_current 0 dr1, len sts, None)) as Hr.
  { unfold Readdir_range. by rewrite bool_decide_eq_true_2 by lia. }
  destruct (slice_range_all sts) as (range & Hsl & Hrange).
  eexists. split.
  { apply (Readdir_returns _ _ _ _ _ _ _ _ _ _ range Hs Hr). simpl. exact Hsl. }
  split; [done|]. rewrite Hrange. simpl. split.
  - intros Hok. rewrite collect_ok.
    + simpl. split; [done|]. rewrite elems_extend. simpl.
      rewrite <- list_fmap_compose. apply list_fmap_ext. intros i r _. apply resolve_ent.
    + apply Forall_fmap, Forall_forall. intros r Hin. simpl.
      rewrite resolve_err. by apply Hok.
  - intros (m & Hin & Hm). apply collect_fail.
    apply (Exists_fmap_elem _ _ _ m); [done|].
    by rewrite resolve_err.
Qed.

(** ** Further properties of the directory reader *)

Lemma setFromBlobRef_trace_ok (ss0 : superset Ref) (f : SeekFetcher Ref) (blobRef : Ref) w :
  trace_ok w -> trace_ok (setFromBlobRef ss0 f blobRef w).2.
Proof.
  intros Hok. unfold Schema.setFromBlobRef.
  destruct (Valid blobRef); simpl; [|done].
  pose proof (Fetch_trace_ok f blobRef w Hok) as Hf.
  destruct (f blobRef) as [e|bytes] eqn:Hfb.
  - rewrite (Fetch_inl _ _ _ _ Hfb) in Hf |- *. done.
  - rewrite (Fetch_inr _ _ _ _ Hfb) in Hf |- *. simpl in Hf. simpl.
    assert (trace_ok (Close {| handle := length w; data := bytes |}
                        (w ++ [EvFetch blobRef (Some (length w))]))) as Hc.
    { apply Close_trace_ok; [done|]. rewrite length_app. simpl. lia. }
    by destruct (jsonDecode bytes _) as [[e|] ss1].
Qed.

(** NewDirReader succeeds exactly when the directory ref is valid, its
    blob is fetched and decoded, and the decoded type is "directory".
    The reader it returns holds the fetcher and the decoded schema, no
    static set and the cursor 0; the one stream it opened is closed. *)
Theorem NewDirReader_success_iff (f : SeekFetcher Ref) (dirBlobRef : Ref) w dr w' :
  NewDirReader f dirBlobRef w = (inr dr, w') <->
  exists bytes (ss1 : superset Ref),
    Valid dirBlobRef = true /\
    f dirBlobRef = inr bytes /\
    jsonDecode bytes (set_BlobRef dirBlobRef (new_superset zeroRef)) = (None, ss1) /\
    Type_ ss1 = "directory" /\
    dr = {| fetcher := f; ss := ss1; staticSet := None; current := 0 |} /\
    w' = w ++ [EvFetch dirBlobRef (Some (length w)); EvClose (length w)].
Proof.
  unfold Schema.NewDirReader, Schema.setFromBlobRef, superset_NewDirReader. split.
  - destruct (Valid dirBlobRef); simpl; [|done].
    destruct (f dirBlobRef) as [e|bytes] eqn:Hf.
    { rewrite (Fetch_inl _ _ _ _ Hf). done. }
    rewrite (Fetch_inr _ _ _ _ Hf). simpl.
    destruct (jsonDecode bytes _) as [[e|] ss1] eqn:Hd; [done|].
    destruct (String.eqb (Type_ ss1) "directory") eqn:Ht; simpl; [|done].
    intros [= <- <-]. exists bytes, ss1. apply String.eqb_eq in Ht.
    repeat split; try done. unfold Close. by rewrite <- app_assoc.
  - intros (bytes & ss1 & Hv & Hf & Hd & Ht & -> & ->).
    rewrite Hv. simpl. rewrite (Fetch_inr _ _ _ _ Hf). simpl. rewrite Hd.
    apply String.eqb_eq in Ht. rewrite Ht. simpl.
    unfold Close. by rewrite <- app_assoc.
Qed.

(** Every error of NewDirReader is one of four: the ref is invalid, the
    fetch failed, the decoding failed, or the type is not "directory".
    The error of line 51, around superset.NewDirReader, never comes
    out: line 46 checks the type first. *)
Theorem NewDirReader_errors (f : SeekFetcher Ref) (dirBlobRef : Ref) w
    (e : error Ref) w' :
  NewDirReader f dirBlobRef w = (inl e, w') ->
  (e = ErrBlobrefInvalid /\ Valid dirBlobRef = false /\ w' = w) \/
  (exists cause, e = ErrFetching dirBlobRef cause /\ f dirBlobRef = inl cause) \/
  (exists cause, e = ErrDecoding dirBlobRef cause) \/
  (exists got, e = ErrExpectedDirectory dirBlobRef got /\ got <> "directory").
Proof.
  unfold Schema.NewDirReader, Schema.setFromBlobRef, superset_NewDirReader.
  destruct (Valid dirBlobRef); simpl; [|intros [= <- <-]; by left].
  destruct (f dirBlobRef) as [c|bytes] eqn:Hf.
  { rewrite (Fetch_inl _ _ _ _ Hf). intros [= <- <-]. right; left. by exists c. }
  rewrite (Fetch_inr _ _ _ _ Hf). simpl.
  destruct (jsonDecode bytes _) as [[c|] ss1] eqn:Hd.
  { intros [= <- <-]. right; right; left. by exists c. }
  destruct (String.eqb (Type_ ss1) "directory") eqn:Ht; simpl; [done|].
  intros [= <- <-]. right; right; right. exists (Type_ ss1).
  split; [done|]. by apply String.eqb_neq.
Qed.

(** NewDirReader leaves no stream open, whether it succeeds or fails. *)
Theorem NewDirReader_closes_stream (f : SeekFetcher Ref) (dirBlobRef : Ref) w :
  trace_ok w ->
  open_streams (NewDirReader f dirBlobRef w).2 = open_streams w /\
  trace_ok (NewDirReader f dirBlobRef w).2.
Proof.
  intros Hok. unfold Schema.NewDirReader.
  pose proof (setFromBlobRef_effects (new_superset zeroRef) f dirBlobRef w) as He.
  pose proof (setFromBlobRef_trace_ok (new_superset zeroRef) f dirBlobRef w Hok) as Ht.
  destruct (Schema.setFromBlobRef _ _ _ _ _ _) as [[[e|] ss1] w1];
    simpl in He, Ht; simpl.
  - split; [by apply He | done].
  - destruct (negb _); simpl; [split; [by apply He | done]|].
    destruct (superset_NewDirReader ss1 f); simpl; (split; [by apply He | done]).
Qed.

Lemma StaticSet_members_keeps_valid (members : list Ref) dr :
  Forall (fun r => Valid r = true) (elems (staticSet dr)) ->
  Forall (fun r => Valid r = true) (elems (StaticSet_members members dr).1.1) /\
  Forall (fun r => Valid r = true) (elems (staticSet (StaticSet_members members dr).2)).
Proof.
  revert dr. induction members as [|m ms IH]; intros dr Hdr; simpl; [done|].
  destruct (Valid m) eqn:Hm; simpl; [|by split].
  apply IH. simpl. apply Forall_app. split; [done|]. by apply Forall_singleton.
Qed.

(** The cache holds valid refs only, and so does every sequence
    StaticSet returns: if that is so before a call, it is so after it,
    whether the call succeeds, fails half-way or is served from the
    cache. *)
Theorem StaticSet_keeps_members_valid dr w :
  Forall (fun r => Valid r = true) (elems (staticSet dr)) ->
  Forall (fun r => Valid r = true) (elems (StaticSet dr w).1.1.1) /\
  Forall (fun r => Valid r = true) (elems (staticSet (StaticSet dr w).1.2)).
Proof.
  intros Hdr. unfold Schema.StaticSet.
  destruct (staticSet dr) as [s|] eqn:Hs; simpl.
  { rewrite Hs. by split. }
  destruct (Valid _); simpl; [|rewrite Hs; by split].
  destruct (Fetch _ _ _) as [[e|rsc] w1]; simpl; [rewrite Hs; by split|].
  destruct (parseSuperset _) as [e|ss1]; simpl; [rewrite Hs; by split|].
  destruct (String.eqb _ _); simpl; [|rewrite Hs; by split].
  apply StaticSet_members_keeps_valid. by rewrite Hs.
Qed.

(** On a reader with nothing cached StaticSet succeeds exactly when the
    entries ref is valid, its blob is fetched and parsed, the type is
    "static-set" and every member is valid; it then returns the members
    in the blob's order (nil for none), caches them and has fetched the
    blob once. *)
Theorem StaticSet_fresh_success_iff dr w sts dr' w' :
  staticSet dr = None ->
  StaticSet dr w = ((sts, None), dr', w') <->
  exists bytes (ss1 : superset Ref),
    Valid (Entries (ss dr)) = true /\
    fetcher dr (Entries (ss dr)) = inr bytes /\
    parseSuperset bytes = inr ss1 /\
    Type_ ss1 = "static-set" /\
    forallb Valid (Members ss1) = true /\
    sts = extend None (Members ss1) /\
    dr' = set_staticSet sts dr /\
    w' = w ++ [EvFetch (Entries (ss dr)) (Some (length w))].
Proof.
  intros Hnil. split.
  - unfold Schema.StaticSet. rewrite Hnil.
    destruct (Valid _) eqn:Hv; simpl; [|done].
    destruct (fetcher dr (Entries (ss dr))) as [e|bytes] eqn:Hf.
    { rewrite (Fetch_inl _ _ _ _ Hf). done. }
    rewrite (Fetch_inr _ _ _ _ Hf). simpl.
    destruct (parseSuperset bytes) as [e|ss1] eqn:Hp; [done|].
    destruct (String.eqb (Type_ ss1) "static-set") eqn:Ht; simpl; [|done].
    destruct (StaticSet_members _ _) as [[sts1 [e|]] dr1] eqn:Hm; [done|].
    intros [= -> -> <-].
    pose proof (StaticSet_members_success _ _ _ _ Hm) as Hall.
    rewrite (StaticSet_members_valid _ _ Hall), Hnil in Hm.
    injection Hm as <- <-.
    exists bytes, ss1. apply String.eqb_eq in Ht. by repeat split.
  - intros (bytes & ss1 & Hv & Hf & Hp & Ht & Hall & -> & -> & ->).
    rewrite (StaticSet_resolves _ _ _ _ Hnil Hv Hf Hp Ht).
    by rewrite (StaticSet_members_valid _ _ Hall), Hnil.
Qed.

(** StaticSet calls Fetch at most once, on the entries ref of the
    directory schema and on nothing else, and leaves the reader's
    fetcher, schema and cursor alone. *)
Theorem StaticSet_fetches_entries_only dr w :
  (fetches (StaticSet dr w).2 = fetches w \/
   fetches (StaticSet dr w).2 = fetches w ++ [Entries (ss dr)]) /\
  fetcher (StaticSet dr w).1.2 = fetcher dr /\
  ss (StaticSet dr w).1.2 = ss dr /\
  current (StaticSet dr w).1.2 = current dr.
Proof.
  split; [|apply StaticSet_frame].
  unfold Schema.StaticSet.
  destruct (staticSet dr); simpl; [by left|].
  destruct (Valid _); simpl; [|by left].
  pose proof (Fetch_fetches (fetcher dr) (Entries (ss dr)) w) as Hf.
  destruct (Fetch _ _ _) as [[e|rsc] w1]; simpl in *; [by right|].
  destruct (parseSuperset _) as [e|ss1]; simpl; [by right|].
  destruct (String.eqb _ _); simpl; by right.
Qed.

(** Readdir never returns entries together with an error: with a
    non-nil error the entries are nil, and the error is the wrapped
    StaticSet error or the dirEntry error of line 158.  io.EOF itself is
    never what Readdir returns. *)
Theorem Readdir_error_without_entries sched n dr w
    (ents : slice DirectoryEntry) (e : error Ref) dr' w' :
  Readdir sched n dr w = Returns ((ents, Some e), dr', w') ->
  ents = None /\
  ((exists cause, e = ErrCantGetStaticSet cause) \/
   e = ErrCantCreateDirEntry None \/
   e = ErrCantCreateDirEntry (Some EOF)) /\
  e <> EOF.
Proof.
  intros H. apply Readdir_inv in H as [(sts & c & _ & [= -> ->])|H].
  { split; [done|]. split; [left; by exists c | done]. }
  destruct H as (sts & dr1 & up & outer & range & _ & Hr & _ & Hcol).
  destruct (collect_cases outer (resolve (fetcher dr') <$> elems range) None)
    as [[_ Hc]|[_ Hc]]; rewrite Hc in Hcol; [done|].
  injection Hcol as -> ->.
  destruct (Readdir_range_outer _ _ _ _ _ _ Hr) as [-> | ->]; auto.
Qed.

(** A page inside the static set: with [n > 0] and at least [n] members
    from the cursor on, all of which resolve, Readdir returns exactly
    [n] entries, those of members [cursor .. cursor+n-1] in order, with
    a nil error. *)
Theorem Readdir_full_page sched n dr w sts dr1 w1 :
  StaticSet dr w = ((sts, None), dr1, w1) ->
  0 < n ->
  0 <= current dr1 ->
  current dr1 + n <= len sts ->
  len sts <= int_max ->
  (forall r, r ∈ take (Z.to_nat n) (drop (Z.to_nat (current dr1)) (elems sts)) ->
     (NewDirectoryEntryFromBlobRef (fetcher dr1) r).2 = None) ->
  exists ents,
    Readdir sched n dr w = Returns ((ents, None), dr1, w1) /\
    elems ents =
      (fun r => (NewDirectoryEntryFromBlobRef (fetcher dr1) r).1) <$>
        take (Z.to_nat n) (drop (Z.to_nat (current dr1)) (elems sts)) /\
    len ents = n.
Proof.
  intros Hs Hn Hc Hfit Hl Hok.
  assert (Readdir_range n dr1 sts = (dr1, current dr1 + n, None)) as Hr.
  { unfold Readdir_range, int_sub, int_add.
    rewrite !wrap_id by (unfold int_min, int_max in *; lia).
    rewrite bool_decide_eq_false_2 by lia.
    by rewrite bool_decide_eq_false_2 by lia. }
  destruct (slice_range sts (current dr1) (current dr1 + n)) as [range|] eqn:Hsl.
  2: { unfold slice_range in Hsl. by rewrite bool_decide_eq_true_2 in Hsl by lia. }
  apply slice_range_elems in Hsl as Hrange. destruct Hrange as (_ & _ & _ & Hrange).
  replace (current dr1 + n - current dr1) with n in Hrange by lia.
  rewrite (Readdir_returns _ _ _ _ _ _ _ _ _ _ _ Hs Hr Hsl), Hrange.
  rewrite collect_ok.
  - eexists. split; [reflexivity|].
    assert (elems (extend (None : slice DirectoryEntry)
                     (ent <$> (resolve (fetcher dr1) <$>
                        take (Z.to_nat n) (drop (Z.to_nat (current dr1)) (elems sts))))) =
            (fun r => (NewDirectoryEntryFromBlobRef (fetcher dr1) r).1) <$>
              take (Z.to_nat n) (drop (Z.to_nat (current dr1)) (elems sts))) as Hents.
    { rewrite elems_extend. simpl. rewrite <- list_fmap_compose.
      apply list_fmap_ext. intros i r _. simpl. apply resolve_ent. }
    split; [done|]. unfold len in *. rewrite Hents, length_fmap, length_take, length_drop.
    lia.
  - apply Forall_fmap, Forall_forall. intros r Hin. simpl.
    rewrite resolve_err. by apply Hok.
Qed.




End Proofs.

(** ** The theorems on the test store *)

Local Open Scope string_scope.

Lemma trace_ok_nil {Ref : Type} : trace_ok ([] : world Ref).
Proof. intros h [H|H]; inversion H. Defined.

Lemma StaticSet_invalid_member_partial_cache_witness :
  exists dr' w',
    Fixture.StaticSet (Fixture.reader "sha1-set-bad") [] =
      ((None, Some ErrInvalidMember), dr', w') /\
    staticSet dr' = Some ["sha1-a"] /\
    Fixture.StaticSet dr' w' = ((Some ["sha1-a"], None), dr', w').
Proof.
  apply (StaticSet_invalid_member_partial_cache Fixture.Valid Fixture.parseSuperset
           (Fixture.reader "sha1-set-bad") []
           "{camliType: static-set, members: [sha1-a, bogus, sha1-c]}"
           (mkSuperset "" "static-set" "" ["sha1-a"; "bogus"; "sha1-c"])
           ["sha1-a"] ["sha1-c"] "bogus");
    (reflexivity || discriminate).
Defined.

Lemma StaticSet_empty_set_fetched_again_witness :
  exists w1 w2,
    Fixture.StaticSet (Fixture.reader "sha1-set-empty") [] =
      ((None, None), Fixture.reader "sha1-set-empty", w1) /\
    Fixture.StaticSet (Fixture.reader "sha1-set-empty") w1 =
      ((None, None), Fixture.reader "sha1-set-empty", w2) /\
    fetches w2 = (fetches [] ++ ["sha1-set-empty"; "sha1-set-empty"])%list.
Proof.
  apply (StaticSet_empty_set_fetched_again Fixture.Valid Fixture.parseSuperset
           (Fixture.reader "sha1-set-empty") []
           "{camliType: static-set, members: []}"
           (mkSuperset "" "static-set" "" []));
    reflexivity.
Defined.

Lemma StaticSet_leaves_stream_open_witness :
  0%nat ∈ open_streams (Fixture.StaticSet (Fixture.reader "sha1-set") []).2.
Proof.
  apply (StaticSet_leaves_stream_open Fixture.Valid Fixture.parseSuperset
           (Fixture.reader "sha1-set") []
           "{camliType: static-set, members: [sha1-a, sha1-b, sha1-c]}");
    [apply trace_ok_nil | reflexivity ..].
Defined.

Lemma NewDirReader_not_directory_witness :
  exists w',
    Fixture.NewDirReader Fixture.fetcher "sha1-a" [] =
      (inl (ErrExpectedDirectory "sha1-a" "file"), w') /\
    fetches w' = (fetches [] ++ ["sha1-a"])%list.
Proof.
  apply (proj2 (NewDirReader_not_directory "" Fixture.Valid Fixture.jsonDecode
                  Fixture.fetcher "sha1-a" [])
           "{camliType: file, fileName: a}" (mkSuperset "sha1-a" "file" "" []));
    (reflexivity || discriminate).
Defined.

Lemma Readdir_task_error_not_reported_witness :
  Fixture.Readdir [Go 2; Main; Go 0] 3 (Fixture.reader "sha1-set-gap") [] =
    Returns ((None, Some (ErrCantCreateDirEntry None)),
             Fixture.reader_at "sha1-set-gap" (Some ["sha1-a"; "sha1-gone"; "sha1-c"]) 0,
             Fixture.fetched "sha1-set-gap") /\
  ((None : option (error string)) = None \/ None = Some (EOF : error string)).
Proof.
  apply (Readdir_task_error_not_reported Fixture.Valid Fixture.parseSuperset
           Fixture.NewDirectoryEntryFromBlobRef [Go 2; Main; Go 0] 3
           (Fixture.reader "sha1-set-gap") []
           (Some ["sha1-a"; "sha1-gone"; "sha1-c"])
           (Fixture.reader_at "sha1-set-gap" (Some ["sha1-a"; "sha1-gone"; "sha1-c"]) 0)
           (Fixture.fetched "sha1-set-gap")
           (Fixture.reader_at "sha1-set-gap" (Some ["sha1-a"; "sha1-gone"; "sha1-c"]) 0)
           3 None (Some ["sha1-a"; "sha1-gone"; "sha1-c"])
           "sha1-gone" (ErrExternal "blob not found"));
    [reflexivity | reflexivity | reflexivity | | reflexivity].
  apply list_elem_of_In. simpl. tauto.
Defined.

Lemma Readdir_clamped_returns_nil_error_witness :
  exists ents,
    Fixture.Readdir [Go 2; Main; Go 0] 5 (Fixture.reader "sha1-set") [] =
      Returns ((ents, None),
               Fixture.reader_at "sha1-set" (Some ["sha1-a"; "sha1-b"; "sha1-c"]) 0,
               Fixture.fetched "sha1-set") /\
    elems ents = [Fixture.file_doc "a"; Fixture.file_doc "b"; Fixture.file_doc "c"].
Proof.
  apply (Readdir_clamped_returns_nil_error Fixture.Valid Fixture.parseSuperset
           Fixture.NewDirectoryEntryFromBlobRef [Go 2; Main; Go 0] 5
           (Fixture.reader "sha1-set") []
           (Some ["sha1-a"; "sha1-b"; "sha1-c"])
           (Fixture.reader_at "sha1-set" (Some ["sha1-a"; "sha1-b"; "sha1-c"]) 0)
           (Fixture.fetched "sha1-set")).
  - reflexivity.
  - reflexivity.
  - split; discriminate.
  - discriminate.
  - reflexivity.
  - intros r Hin. apply list_elem_of_In in Hin. simpl in Hin.
    destruct Hin as [<-|[<-|[<-|[]]]]; reflexivity.
Defined.

Lemma Readdir_paginated_cursor_unchanged_witness :
  current (Fixture.reader_at "sha1-set" (Some ["sha1-a"; "sha1-b"; "sha1-c"]) 0) =
    current (Fixture.reader "sha1-set") /\
  forall sched', exists w'',
    Fixture.Readdir sched' 2
      (Fixture.reader_at "sha1-set" (Some ["sha1-a"; "sha1-b"; "sha1-c"]) 0)
      (Fixture.fetched "sha1-set") =
    Returns ((Some [Fixture.file_doc "a"; Fixture.file_doc "b"], None),
             Fixture.reader_at "sha1-set" (Some ["sha1-a"; "sha1-b"; "sha1-c"]) 0,
             w'').
Proof.
  apply (Readdir_paginated_cursor_unchanged Fixture.Valid Fixture.parseSuperset
           Fixture.NewDirectoryEntryFromBlobRef [Main; Go 1; Go 0] 2
           (Fixture.reader "sha1-set") []
           (Some [Fixture.file_doc "a"; Fixture.file_doc "b"])
           (Fixture.reader_at "sha1-set" (Some ["sha1-a"; "sha1-b"; "sha1-c"]) 0)
           (Fixture.fetched "sha1-set"));
    reflexivity.
Defined.

Lemma Readdir_entries_in_member_order_witness :
  (exists sts dr1 up outer (range : slice string),
     Fixture.StaticSet (Fixture.reader "sha1-set") [] =
       ((sts, None), dr1, Fixture.fetched "sha1-set") /\
     Readdir_range 3 dr1 sts =
       (Fixture.reader_at "sha1-set" (Some ["sha1-a"; "sha1-b"; "sha1-c"]) 0, up, outer) /\
     slice_range sts 0 up = Some range /\
     3%nat = length (elems range) /\
     [Fixture.file_doc "a"; Fixture.file_doc "b"; Fixture.file_doc "c"] =
       (fun r => (Fixture.NewDirectoryEntryFromBlobRef Fixture.fetcher r).1) <$> elems range) /\
  forall sched',
    Fixture.Readdir sched' 3 (Fixture.reader "sha1-set") [] =
      Returns ((Some [Fixture.file_doc "a"; Fixture.file_doc "b"; Fixture.file_doc "c"], None),
               Fixture.reader_at "sha1-set" (Some ["sha1-a"; "sha1-b"; "sha1-c"]) 0,
               Fixture.fetched "sha1-set").
Proof.
  apply (Readdir_entries_in_member_order Fixture.Valid Fixture.parseSuperset
           Fixture.NewDirectoryEntryFromBlobRef [Go 2; Go 1; Main; Go 0; Main] 3
           (Fixture.reader "sha1-set") []
           (Some [Fixture.file_doc "a"; Fixture.file_doc "b"; Fixture.file_doc "c"])
           (Fixture.reader_at "sha1-set" (Some ["sha1-a"; "sha1-b"; "sha1-c"]) 0)
           (Fixture.fetched "sha1-set")).
  reflexivity.
Defined.

Lemma Readdir_all_resets_cursor_witness :
  exists r,
    Fixture.Readdir [Go 1; Main] 0 (Fixture.reader_at "sha1-set" None 2) [] =
      Returns (r, Fixture.reader_at "sha1-set" (Some ["sha1-a"; "sha1-b"; "sha1-c"]) 0,
               Fixture.fetched "sha1-set") /\
    current (Fixture.reader_at "sha1-set" (Some ["sha1-a"; "sha1-b"; "sha1-c"]) 0) = 0 /\
    ((forall m, m ∈ ["sha1-a"; "sha1-b"; "sha1-c"] ->
        (Fixture.NewDirectoryEntryFromBlobRef Fixture.fetcher m).2 = None) ->
     r.2 = None /\
     elems r.1 = [Fixture.file_doc "a"; Fixture.file_doc "b"; Fixture.file_doc "c"]) /\
    ((exists m, m ∈ ["sha1-a"; "sha1-b"; "sha1-c"] /\
        (Fixture.NewDirectoryEntryFromBlobRef Fixture.fetcher m).2 <> None) ->
     r = (None, Some (ErrCantCreateDirEntry None))).
Proof.
  apply (Readdir_all_resets_cursor Fixture.Valid Fixture.parseSuperset
           Fixture.NewDirectoryEntryFromBlobRef [Go 1; Main] 0
           (Fixture.reader_at "sha1-set" None 2) []
           (Some ["sha1-a"; "sha1-b"; "sha1-c"])
           (Fixture.reader_at "sha1-set" (Some ["sha1-a"; "sha1-b"; "sha1-c"]) 2)
           (Fixture.fetched "sha1-set")).
  - discriminate.
  - reflexivity.
Defined.

Lemma NewDirReader_errors_witness :
  ((ErrExpectedDirectory "sha1-a" "file" : error string) = ErrBlobrefInvalid /\
   Fixture.Valid "sha1-a" = false /\
   [EvFetch "sha1-a" (Some 0%nat); EvClose 0%nat] = []) \/
  (exists cause, (ErrExpectedDirectory "sha1-a" "file" : error string) =
                   ErrFetching "sha1-a" cause /\
                 Fixture.fetcher "sha1-a" = inl cause) \/
  (exists cause, (ErrExpectedDirectory "sha1-a" "file" : error string) =
                   ErrDecoding "sha1-a" cause) \/
  (exists got, (ErrExpectedDirectory "sha1-a" "file" : error string) =
                 ErrExpectedDirectory "sha1-a" got /\ got <> "directory").
Proof.
  apply (NewDirReader_errors "" Fixture.Valid Fixture.jsonDecode Fixture.fetcher
           "sha1-a" [] (ErrExpectedDirectory "sha1-a" "file")
           [EvFetch "sha1-a" (Some 0%nat); EvClose 0%nat]).
  reflexivity.
Defined.

Lemma NewDirReader_closes_stream_witness :
  open_streams (Fixture.NewDirReader Fixture.fetcher "sha1-dir" []).2 =
    open_streams ([] : world string) /\
  trace_ok (Fixture.NewDirReader Fixture.fetcher "sha1-dir" []).2.
Proof.
  apply (NewDirReader_closes_stream "" Fixture.Valid Fixture.jsonDecode
           Fixture.fetcher "sha1-dir" []).
  apply trace_ok_nil.
Defined.

Lemma StaticSet_keeps_members_valid_witness :
  Forall (fun r => Fixture.Valid r = true)
    (elems (Fixture.StaticSet (Fixture.reader "sha1-set-bad") []).1.1.1) /\
  Forall (fun r => Fixture.Valid r = true)
    (elems (staticSet (Fixture.StaticSet (Fixture.reader "sha1-set-bad") []).1.2)).
Proof.
  apply (StaticSet_keeps_members_valid Fixture.Valid Fixture.parseSuperset
           (Fixture.reader "sha1-set-bad") []).
  apply Forall_nil_2.
Defined.

Lemma StaticSet_fresh_success_iff_witness :
  Fixture.StaticSet (Fixture.reader "sha1-set") [] =
    ((Some ["sha1-a"; "sha1-b"; "sha1-c"], None),
     Fixture.reader_at "sha1-set" (Some ["sha1-a"; "sha1-b"; "sha1-c"]) 0,
     Fixture.fetched "sha1-set") <->
  exists bytes (ss1 : superset string),
    Fixture.Valid "sha1-set" = true /\
    Fixture.fetcher "sha1-set" = inr bytes /\
    Fixture.parseSuperset bytes = inr ss1 /\
    Type_ ss1 = "static-set" /\
    forallb Fixture.Valid (Members ss1) = true /\
    Some ["sha1-a"; "sha1-b"; "sha1-c"] = extend None (Members ss1) /\
    Fixture.reader_at "sha1-set" (Some ["sha1-a"; "sha1-b"; "sha1-c"]) 0 =
      set_staticSet (Some ["sha1-a"; "sha1-b"; "sha1-c"]) (Fixture.reader "sha1-set") /\
    Fixture.fetched "sha1-set" = ([] ++ [EvFetch "sha1-set" (Some 0%nat)])%list.
Proof.
  apply (StaticSet_fresh_success_iff Fixture.Valid Fixture.parseSuperset
           (Fixture.reader "sha1-set") []
           (Some ["sha1-a"; "sha1-b"; "sha1-c"])
           (Fixture.reader_at "sha1-set" (Some ["sha1-a"; "sha1-b"; "sha1-c"]) 0)
           (Fixture.fetched "sha1-set")).
  reflexivity.
Defined.

Lemma Readdir_error_without_entries_witness :
  (None : slice string) = None /\
  ((exists cause, (ErrCantCreateDirEntry None : error string) = ErrCantGetStaticSet cause) \/
   (ErrCantCreateDirEntry None : error string) = ErrCantCreateDirEntry None \/
   (ErrCantCreateDirEntry None : error string) = ErrCantCreateDirEntry (Some EOF)) /\
  (ErrCantCreateDirEntry None : error string) <> EOF.
Proof.
  apply (Readdir_error_without_entries Fixture.Valid Fixture.parseSuperset
           Fixture.NewDirectoryEntryFromBlobRef [Go 1; Main] 3
           (Fixture.reader "sha1-set-gap") [] None (ErrCantCreateDirEntry None)
           (Fixture.reader_at "sha1-set-gap" (Some ["sha1-a"; "sha1-gone"; "sha1-c"]) 0)
           (Fixture.fetched "sha1-set-gap")).
  reflexivity.
Defined.

Lemma Readdir_full_page_witness :
  exists ents,
    Fixture.Readdir [Go 1; Main; Go 0] 2 (Fixture.reader "sha1-set") [] =
      Returns ((ents, None),
               Fixture.reader_at "sha1-set" (Some ["sha1-a"; "sha1-b"; "sha1-c"]) 0,
               Fixture.fetched "sha1-set") /\
    elems ents = [Fixture.file_doc "a"; Fixture.file_doc "b"] /\
    len ents = 2.
Proof.
  apply (Readdir_full_page Fixture.Valid Fixture.parseSuperset
           Fixture.NewDirectoryEntryFromBlobRef [Go 1; Main; Go 0] 2
           (Fixture.reader "sha1-set") []
           (Some ["sha1-a"; "sha1-b"; "sha1-c"])
           (Fixture.reader_at "sha1-set" (Some ["sha1-a"; "sha1-b"; "sha1-c"]) 0)
           (Fixture.fetched "sha1-set")).
  - reflexivity.
  - reflexivity.
  - discriminate.
  - discriminate.
  - discriminate.
  - intros r Hin. apply list_elem_of_In in Hin. simpl in Hin.
    destruct Hin as [<-|[<-|[]]]; reflexivity.
Defined.



End SchemaTheory.

Module AuthTheory.
Import Auth.

Local Open Scope string_scope.

Lemma strip_prefix_append (p s : string) : strip_prefix p (p ++ s) = Some s.
Proof.
  induction p as [|a p IH]; simpl; [done|].
  by rewrite Ascii.eqb_refl.
Qed.

Lemma class_run_all (s : string) : all_base64_class s = true -> class_run s = s.
Proof.
  induction s as [|c s IH]; simpl; [done|].
  intros [Hc Hs]%andb_true_iff. rewrite Hc. by rewrite IH.
Qed.

Lemma cut_colon_append (user pass : string) :
  has_colon user = false -> cut_colon (user ++ ":" ++ pass) = Some (user, pass).
Proof.
  unfold has_colon. induction user as [|c user IH]; simpl; [done|].
  destruct (Ascii.eqb c ":"); [done|].
  destruct (cut_colon user) as [[? ?]|] eqn:Hu; [done|].
  intros _. by rewrite IH.
Qed.

Section BasicAuth.

Variable StdEncoding_Decode : string -> Error + string.

Local Abbreviation basicAuth := (Auth.basicAuth StdEncoding_Decode).
Local Abbreviation DevAuth_IsAuthorized := (Auth.DevAuth_IsAuthorized StdEncoding_Decode).

(** basicAuth on a header [Basic <encoded>] whose payload decodes to
    [user:pass]: the two pieces are the text before the first colon and
    all the text after it. *)
Lemma basicAuth_well_formed (req : Request) (encoded user pass : string) :
  Header_Get (Header req) "Authorization" = "Basic " ++ encoded ->
  encoded <> "" ->
  all_base64_class encoded = true ->
  StdEncoding_Decode encoded = inr (user ++ ":" ++ pass) ->
  has_colon user = false ->
  basicAuth req = (user, pass, None).
Proof.
  intros Hh Hne Hclass Hdec Hu. unfold Auth.basicAuth.
  rewrite Hh. change ("Basic " ++ encoded =? "") with false. cbv iota.
  unfold FindStringSubmatch. rewrite strip_prefix_append, (class_run_all _ Hclass).
  destruct encoded as [|c encoded]; [done|].
  rewrite Hdec. unfold SplitN_colon_2. by rewrite (cut_colon_append _ _ Hu).
Qed.

(** C10.  For a request whose Authorization header is [Basic <encoded>],
    with [encoded] a non-empty run of base64 characters that decodes to
    [user:pass] ([user] being the text before the first colon),
    DevAuth.IsAuthorized answers true exactly when [pass] is the
    configured password; [user] plays no part, so every username, the
    empty one included, passes with the right password. *)
Theorem DevAuth_IsAuthorized_iff_password (da : DevAuth) (req : Request)
    (encoded user pass : string) :
  Header_Get (Header req) "Authorization" = "Basic " ++ encoded ->
  encoded <> "" ->
  all_base64_class encoded = true ->
  StdEncoding_Decode encoded = inr (user ++ ":" ++ pass) ->
  has_colon user = false ->
  DevAuth_IsAuthorized da req = true <-> pass = Password da.
Proof.
  intros Hh Hne Hclass Hdec Hu. unfold Auth.DevAuth_IsAuthorized.
  rewrite (basicAuth_well_formed _ _ _ _ Hh Hne Hclass Hdec Hu).
  apply String.eqb_eq.
Qed.

End BasicAuth.


Lemma DevAuth_IsAuthorized_iff_password_witness :
  Auth.DevAuth_IsAuthorized Fixture.StdEncoding_Decode (mkDevAuth "secret")
    (Fixture.request "Basic OnNlY3JldA==") = true <->
  "secret" = Password (mkDevAuth "secret").
Proof.
  apply (DevAuth_IsAuthorized_iff_password Fixture.StdEncoding_Decode
           (mkDevAuth "secret") (Fixture.request "Basic OnNlY3JldA==")
           "OnNlY3JldA==" "" "secret");
    (reflexivity || discriminate).
Defined.

End AuthTheory.

Module AuthGateTheory.
Import Auth AuthGate AuthTheory.

Local Open Scope string_scope.

(** ** Strings *)

Lemma append_empty_r (s : string) : s ++ "" = s.
Proof.
  induction s as [|c s IH]; [done|].
  change (String c (s ++ "") = String c s). by f_equal.
Qed.

Lemma strip_prefix_Some (p s rest : string) :
  strip_prefix p s = Some rest -> s = p ++ rest.
Proof.
  revert s. induction p as [|a p IH]; intros s; simpl.
  - by intros [= ->].
  - destruct s as [|b s]; [done|].
    destruct (Ascii.eqb a b) eqn:Hab; [|done].
    apply Ascii.eqb_eq in Hab as ->. intros H. by rewrite (IH _ H).
Qed.

Lemma class_run_split (s : string) :
  exists rest, s = class_run s ++ rest /\ class_run rest = "" /\
               all_base64_class (class_run s) = true.
Proof.
  induction s as [|c s (rest & Hs & Hrest & Hall)].
  - by exists "".
  - simpl. destruct (base64_class c) eqn:Hc.
    + exists rest. simpl. rewrite Hc, Hall. split; [|done].
      change (String c s = String c (class_run s ++ rest)). by rewrite <- Hs.
    + exists (String c s). simpl. by rewrite Hc.
Qed.

Lemma class_run_append (encoded rest : string) :
  all_base64_class encoded = true -> class_run rest = "" ->
  class_run (encoded ++ rest) = encoded.
Proof.
  induction encoded as [|c e IH]; simpl; [done|].
  intros [Hc He]%andb_true_iff Hrest. rewrite Hc. by rewrite IH.
Qed.

Lemma cut_colon_Some (s before after : string) :
  cut_colon s = Some (before, after) ->
  s = before ++ ":" ++ after /\ has_colon before = false.
Proof.
  unfold has_colon. revert before. induction s as [|c s IH]; intros before; simpl; [done|].
  destruct (Ascii.eqb c ":") eqn:Hc.
  - apply Ascii.eqb_eq in Hc as ->. by intros [= <- <-].
  - destruct (cut_colon s) as [[b a]|]; [|done].
    intros [= <- <-]. destruct (IH b eq_refl) as [-> Hb]. simpl. rewrite Hc.
    split; [done|]. by destruct (cut_colon b).
Qed.

Lemma has_colon_append (user pass : string) :
  has_colon (user ++ ":" ++ pass) = true.
Proof.
  unfold has_colon. induction user as [|c user IH]; simpl; [done|].
  destruct (Ascii.eqb c ":"); [done|]. revert IH.
  by destruct (cut_colon _) as [[? ?]|].
Qed.

(** strings.Split: never empty, pieces without colons, and the pieces
    joined give the string back. *)
Lemma Split_colon_nonempty (s : string) : Split_colon s <> [].
Proof.
  induction s as [|c s IH]; simpl; [done|].
  destruct (Ascii.eqb c ":"); [done|]. by destruct (Split_colon s).
Qed.

Lemma Split_colon_pieces (s : string) :
  Forall (fun piece => has_colon piece = false) (Split_colon s).
Proof.
  unfold has_colon. induction s as [|c s IH]; simpl.
  - by apply Forall_singleton.
  - destruct (Ascii.eqb c ":") eqn:Hc; [by apply Forall_cons|].
    destruct (Split_colon s) as [|piece pieces]; [by apply Forall_singleton; simpl; rewrite Hc|].
    inversion_clear IH as [|? ? Hp Hps]. apply Forall_cons. split; [|done].
    simpl. rewrite Hc. by destruct (cut_colon piece).
Qed.

Lemma Join_Split_colon (s : string) : Join_colon (Split_colon s) = s.
Proof.
  induction s as [|c s IH]; simpl; [done|].
  destruct (Ascii.eqb c ":") eqn:Hc.
  - apply Ascii.eqb_eq in Hc as ->.
    pose proof (Split_colon_nonempty s).
    destruct (Split_colon s) as [|piece pieces] eqn:Hs; [done|].
    by rewrite <- IH.
  - destruct (Split_colon s) as [|piece pieces]; [simpl in *; by subst|].
    rewrite <- IH. by destruct pieces.
Qed.

Lemma Split_colon_no_colon (s : string) :
  has_colon s = false -> Split_colon s = [s].
Proof.
  unfold has_colon. induction s as [|c s IH]; simpl; [done|].
  destruct (Ascii.eqb c ":"); [done|].
  destruct (cut_colon s) as [[? ?]|]; [done|]. intros _. by rewrite IH.
Qed.

Lemma Split_colon_append (piece s : string) :
  has_colon piece = false ->
  Split_colon (piece ++ ":" ++ s) = piece :: Split_colon s.
Proof.
  unfold has_colon. induction piece as [|c piece IH]; simpl; [done|].
  destruct (Ascii.eqb c ":"); [done|].
  destruct (cut_colon piece) as [[? ?]|]; [done|]. intros _. by rewrite IH.
Qed.


Section Gate.

Variable StdEncoding_Decode : string -> Error + string.
Variable Quote : string -> string.
Variable StdEncoding_EncodeToString : string -> string.

Local Abbreviation basicAuth := (Auth.basicAuth StdEncoding_Decode).
Local Abbreviation UserPass_IsAuthorized := (Auth.UserPass_IsAuthorized StdEncoding_Decode).
Local Abbreviation DevAuth_IsAuthorized := (Auth.DevAuth_IsAuthorized StdEncoding_Decode).
Local Abbreviation AuthMode_IsAuthorized := (AuthGate.AuthMode_IsAuthorized StdEncoding_Decode).
Local Abbreviation IsAuthorized := (AuthGate.IsAuthorized StdEncoding_Decode).
Local Abbreviation SendUnauthorized := (AuthGate.SendUnauthorized Quote).
Local Abbreviation RequireAuth := (AuthGate.RequireAuth StdEncoding_Decode Quote).
Local Abbreviation SetBasicAuth := (AuthGate.SetBasicAuth StdEncoding_EncodeToString).
Local Abbreviation UserPass_AddAuthHeader :=
  (AuthGate.UserPass_AddAuthHeader StdEncoding_EncodeToString).
Local Abbreviation DevAuth_AddAuthHeader :=
  (AuthGate.DevAuth_AddAuthHeader StdEncoding_EncodeToString).
Local Abbreviation AuthMode_AddAuthHeader :=
  (AuthGate.AuthMode_AddAuthHeader StdEncoding_EncodeToString).

(** ** basicAuth *)

(** basicAuth on a header that starts with [Basic ] and a run of base64
    characters, whatever follows the run. *)
Lemma basicAuth_header (req : Request) (encoded rest : string) :
  Header_Get (Header req) "Authorization" = "Basic " ++ encoded ++ rest ->
  encoded <> "" ->
  all_base64_class encoded = true ->
  class_run rest = "" ->
  basicAuth req =
    match StdEncoding_Decode encoded with
    | inl err => ("", "", Some err)
    | inr decoded =>
        match cut_colon decoded with
        | Some (user, pass) => (user, pass, None)
        | None => ("", "", Some ErrTwoPieces)
        end
    end.
Proof.
  intros Hh Hne Hclass Hrest. unfold Auth.basicAuth.
  rewrite Hh. change ("Basic " ++ encoded ++ rest =? "") with false. cbv iota.
  unfold FindStringSubmatch.
  rewrite strip_prefix_append, (class_run_append _ _ Hclass Hrest).
  destruct encoded as [|c encoded]; [done|].
  destruct (StdEncoding_Decode _) as [err|decoded]; [done|].
  unfold SplitN_colon_2. by destruct (cut_colon decoded) as [[user pass]|].
Qed.

(** basicAuth returns a user and a password exactly for the headers
    that start with [Basic ] and a non-empty run of base64 characters
    which decodes to [user:pass], [user] being the text before the first
    colon.  What follows the run in the header is not looked at: the
    pattern is not anchored at the end. *)
Theorem basicAuth_success_iff (req : Request) (user pass : string) :
  basicAuth req = (user, pass, None) <->
  exists encoded rest,
    Header_Get (Header req) "Authorization" = "Basic " ++ encoded ++ rest /\
    encoded <> "" /\
    all_base64_class encoded = true /\
    class_run rest = "" /\
    StdEncoding_Decode encoded = inr (user ++ ":" ++ pass) /\
    has_colon user = false.
Proof.
  split.
  - unfold Auth.basicAuth.
    destruct (Header_Get (Header req) "Authorization" =? "") eqn:He; [done|].
    unfold FindStringSubmatch.
    destruct (strip_prefix "Basic " _) as [tail|] eqn:Hp; [|done].
    apply strip_prefix_Some in Hp.
    destruct (class_run_split tail) as (rest & Htail & Hrest & Hall).
    destruct (class_run tail) as [|c run] eqn:Hrun; [done|].
    destruct (StdEncoding_Decode (String c run)) as [err|decoded] eqn:Hd; [done|].
    unfold SplitN_colon_2.
    destruct (cut_colon decoded) as [[u p]|] eqn:Hcut; [|done].
    intros [= <- <-]. apply cut_colon_Some in Hcut as [-> Hu].
    exists (String c run), rest. rewrite Hp, Htail. by repeat split.
  - intros (encoded & rest & Hh & Hne & Hclass & Hrest & Hdec & Hu).
    rewrite (basicAuth_header _ _ _ Hh Hne Hclass Hrest), Hdec.
    by rewrite (cut_colon_append _ _ Hu).
Qed.

Lemma IsAuthorized_implies_TriedAuthorization_aux (m : AuthMode) (req : Request) :
  AuthMode_IsAuthorized m req = true -> TriedAuthorization req = true.
Proof.
  unfold TriedAuthorization.
  destruct (Header_Get (Header req) "Authorization" =? "") eqn:He; [|done].
  assert (basicAuth req = ("", "", Some ErrMissingAuthorization)) as Hb
    by (unfold Auth.basicAuth; by rewrite He).
  destruct m; simpl; unfold Auth.UserPass_IsAuthorized, Auth.DevAuth_IsAuthorized;
    by rewrite Hb.
Qed.

(** basicAuth fails on a request without an Authorization header, and
    so both modes refuse it: a request that passes IsAuthorized is one
    for which TriedAuthorization holds, its Authorization header being
    there and not empty. *)
Theorem IsAuthorized_implies_TriedAuthorization (m : AuthMode) (req : Request) :
  AuthMode_IsAuthorized m req = true ->
  TriedAuthorization req = true /\ Header_Get (Header req) "Authorization" <> "".
Proof.
  intros Ha. apply IsAuthorized_implies_TriedAuthorization_aux in Ha as Ht.
  split; [done|]. unfold TriedAuthorization in Ht.
  intros He. by rewrite He in Ht.
Qed.

(** ** The two modes *)

(** UserPass.IsAuthorized on a well-formed header that decodes to
    [user:pass]: true exactly when both the user and the password are
    the configured ones. *)
Theorem UserPass_IsAuthorized_iff_credentials (up : UserPass) (req : Request)
    (encoded user pass : string) :
  Header_Get (Header req) "Authorization" = "Basic " ++ encoded ->
  encoded <> "" ->
  all_base64_class encoded = true ->
  StdEncoding_Decode encoded = inr (user ++ ":" ++ pass) ->
  has_colon user = false ->
  UserPass_IsAuthorized up req = true <->
  user = Username up /\ pass = UserPass_Password up.
Proof.
  intros Hh Hne Hclass Hdec Hu. unfold Auth.UserPass_IsAuthorized.
  rewrite (basicAuth_well_formed _ _ _ _ _ Hh Hne Hclass Hdec Hu).
  rewrite andb_true_iff, !String.eqb_eq. done.
Qed.

(** Whatever request UserPass accepts, DevAuth with the same password
    accepts too: DevAuth is UserPass without the check of the user. *)
Theorem UserPass_accepts_implies_DevAuth_accepts (up : UserPass) (req : Request) :
  UserPass_IsAuthorized up req = true ->
  DevAuth_IsAuthorized {| Password := UserPass_Password up |} req = true.
Proof.
  unfold Auth.UserPass_IsAuthorized, Auth.DevAuth_IsAuthorized.
  destruct (basicAuth req) as [[user pass] [err|]]; [done|]. simpl.
  by intros [_ Hp]%andb_true_iff.
Qed.

(** ** The request gate *)

(** A request without an Authorization header never reaches the
    handler: RequireAuth answers with the challenge header, status 401
    and the Unauthorized body, and in DevAuth mode the realm of the
    challenge spells out the password. *)
Theorem RequireAuth_without_header
    (handler : ResponseWriter -> Request -> ResponseWriter)
    (m : AuthMode) (conn : ResponseWriter) (req : Request) :
  TriedAuthorization req = false ->
  RequireAuth handler (Some m) conn req =
    Returns (conn ++
      [HeaderSet "WWW-Authenticate"
         ("Basic realm=" ++
          Quote match m with
                | ModeDevAuth da => "Any username, password is: " ++ Password da
                | ModeUserPass _ => "camlistored"
                end);
       WriteHeader 401;
       Write "<h1>Unauthorized</h1>"])%list.
Proof.
  intros Ht. unfold AuthGate.RequireAuth.
  destruct (AuthGate.AuthMode_IsAuthorized _ m req) eqn:Ha.
  - apply IsAuthorized_implies_TriedAuthorization_aux in Ha. congruence.
  - unfold AuthGate.SendUnauthorized. by destruct m.
Qed.

(** ** The client side *)

Lemma Header_Get_SetBasicAuth (req : Request) (username password : string) :
  Header_Get (Header (SetBasicAuth req username password)) "Authorization" =
  "Basic " ++ StdEncoding_EncodeToString (username ++ ":" ++ password).
Proof.
  unfold AuthGate.SetBasicAuth, Header_Get. simpl. by rewrite lookup_insert_eq.
Qed.

(** What basicAuth reads from a header made by SetBasicAuth, when
    base64 gives the text back: the text before the first colon of
    [username:password], and the rest. *)
Lemma basicAuth_SetBasicAuth (req : Request) (username password : string) :
  let s := username ++ ":" ++ password in
  StdEncoding_EncodeToString s <> "" ->
  all_base64_class (StdEncoding_EncodeToString s) = true ->
  StdEncoding_Decode (StdEncoding_EncodeToString s) = inr s ->
  exists user pass,
    cut_colon s = Some (user, pass) /\
    basicAuth (SetBasicAuth req username password) = (user, pass, None).
Proof.
  intros s Hne Hclass Hdec.
  pose proof (has_colon_append username password) as Hc. unfold has_colon in Hc.
  destruct (cut_colon (username ++ ":" ++ password)) as [[user pass]|] eqn:Hcut; [|done].
  exists user, pass. split; [done|].
  rewrite (basicAuth_header _ (StdEncoding_EncodeToString s) "").
  - fold s in Hcut. by rewrite Hdec, Hcut.
  - rewrite Header_Get_SetBasicAuth. fold s.
    by rewrite append_empty_r.
  - done.
  - done.
  - done.
Qed.

(** A request that DevAuth.AddAuthHeader has prepared passes
    DevAuth.IsAuthorized, whatever the password, colons included:
    the user sent is empty, so the first colon is the separator. *)
Theorem DevAuth_AddAuthHeader_authorizes (da : DevAuth) (req : Request) :
  let s := ":" ++ Password da in
  StdEncoding_EncodeToString s <> "" ->
  all_base64_class (StdEncoding_EncodeToString s) = true ->
  StdEncoding_Decode (StdEncoding_EncodeToString s) = inr s ->
  DevAuth_IsAuthorized da (DevAuth_AddAuthHeader da req) = true.
Proof.
  intros s Hne Hclass Hdec.
  destruct (basicAuth_SetBasicAuth req "" (Password da) Hne Hclass Hdec)
    as (user & pass & Hcut & Hb).
  unfold Auth.DevAuth_IsAuthorized, AuthGate.DevAuth_AddAuthHeader. rewrite Hb.
  simpl in Hcut. injection Hcut as <- <-. apply String.eqb_refl.
Qed.

(** A request that UserPass.AddAuthHeader has prepared passes
    UserPass.IsAuthorized exactly when the user name holds no colon:
    basicAuth cuts [username:password] at the first colon. *)
Theorem UserPass_AddAuthHeader_authorizes_iff (up : UserPass) (req : Request) :
  let s := Username up ++ ":" ++ UserPass_Password up in
  StdEncoding_EncodeToString s <> "" ->
  all_base64_class (StdEncoding_EncodeToString s) = true ->
  StdEncoding_Decode (StdEncoding_EncodeToString s) = inr s ->
  UserPass_IsAuthorized up (UserPass_AddAuthHeader up req) = true <->
  has_colon (Username up) = false.
Proof.
  intros s Hne Hclass Hdec.
  destruct (basicAuth_SetBasicAuth req (Username up) (UserPass_Password up) Hne Hclass Hdec)
    as (user & pass & Hcut & Hb).
  unfold Auth.UserPass_IsAuthorized, AuthGate.UserPass_AddAuthHeader. rewrite Hb.
  rewrite andb_true_iff, !String.eqb_eq. split.
  - intros [-> _]. by apply cut_colon_Some in Hcut as [_ Hu].
  - intros Hu. rewrite (cut_colon_append _ _ Hu) in Hcut. by injection Hcut as <- <-.
Qed.

End Gate.


(** ** FromConfig *)

(** When CAMLI_ADVERTISED_PASSWORD is set, FromConfig gives DevAuth
    with that password and stores it in the package variable, whatever
    the config string is, a malformed or empty one included. *)
Theorem FromConfig_advertised_password_wins (getenv : string -> string)
    (mode : option AuthMode) (authConfig pw : string) :
  getenv "CAMLI_ADVERTISED_PASSWORD" = pw ->
  pw <> "" ->
  FromConfig getenv mode authConfig =
    (Some (ModeDevAuth {| Password := pw |}), None,
     Some (ModeDevAuth {| Password := pw |})).
Proof.
  intros Hpw Hne. unfold FromConfig.
  pose proof (Split_colon_nonempty authConfig).
  destruct (Split_colon authConfig) as [|authType pieces]; [done|].
  rewrite Hpw. apply String.eqb_neq in Hne. by rewrite Hne.
Qed.

(** Without CAMLI_ADVERTISED_PASSWORD, FromConfig succeeds exactly on
    the strings [userpass:u:p] where neither [u] nor [p] holds a colon;
    it then gives UserPass with [u] and [p] and stores it in the package
    variable.  A password with a colon cannot be configured. *)
Theorem FromConfig_userpass_iff (getenv : string -> string)
    (mode mode' : option AuthMode) (authConfig : string) (m : AuthMode) :
  getenv "CAMLI_ADVERTISED_PASSWORD" = "" ->
  FromConfig getenv mode authConfig = (Some m, None, mode') <->
  exists u p,
    has_colon u = false /\ has_colon p = false /\
    authConfig = "userpass:" ++ u ++ ":" ++ p /\
    m = ModeUserPass {| Username := u; UserPass_Password := p |} /\
    mode' = Some m.
Proof.
  intros Henv. unfold FromConfig. rewrite Henv. simpl. split.
  - pose proof (Join_Split_colon authConfig) as Hjoin.
    pose proof (Split_colon_pieces authConfig) as Hpieces.
    destruct (Split_colon authConfig) as [|authType pieces]; [done|].
    destruct (String.eqb authType "userpass") eqn:Ht; [|done].
    apply String.eqb_eq in Ht as ->.
    destruct pieces as [|u [|p [|? ?]]]; try done.
    intros [= <- <-]. exists u, p.
    inversion_clear Hpieces as [|? ? _ Hps].
    inversion_clear Hps as [|? ? Hu Hps'].
    inversion_clear Hps' as [|? ? Hp _].
    repeat split; try done; by rewrite <- Hjoin.
  - intros (u & p & Hu & Hp & -> & -> & ->).
    change ("userpass:" ++ u ++ ":" ++ p) with ("userpass" ++ ":" ++ (u ++ ":" ++ p)).
    rewrite (Split_colon_append "userpass") by done.
    rewrite (Split_colon_append u) by done.
    by rewrite (Split_colon_no_colon p).
Qed.

(** A FromConfig that reports an error returns a nil mode and leaves
    the package variable as it was.  The error is the wrong-userpass or
    the unknown-type one: strings.Split never gives an empty list, so
    the invalid-auth-string error of line 54 cannot come out. *)
Theorem FromConfig_failure (getenv : string -> string)
    (mode mode' r : option AuthMode) (authConfig : string) (e : ConfigError) :
  FromConfig getenv mode authConfig = (r, Some e, mode') ->
  r = None /\ mode' = mode /\
  getenv "CAMLI_ADVERTISED_PASSWORD" = "" /\
  (e = ErrWrongUserpass \/
   exists authType, e = ErrUnknownAuthType authType /\ authType <> "userpass").
Proof.
  unfold FromConfig.
  pose proof (Split_colon_nonempty authConfig).
  destruct (Split_colon authConfig) as [|authType pieces]; [done|].
  destruct (String.eqb (getenv "CAMLI_ADVERTISED_PASSWORD") "") eqn:Henv; simpl; [|done].
  apply String.eqb_eq in Henv.
  destruct (String.eqb authType "userpass") eqn:Ht.
  - destruct pieces as [|u [|p [|? ?]]]; try done;
      intros [= <- <- <-]; repeat split; auto.
  - intros [= <- <- <-]. repeat split; try done.
    right. exists authType. split; [done|]. by apply String.eqb_neq.
Qed.

Section Agreement.

Variable StdEncoding_Decode : string -> Error + string.
Variable StdEncoding_EncodeToString : string -> string.

(** A mode that FromConfig has returned accepts the requests that its
    own AddAuthHeader prepares (given that base64 returns the text it
    encoded): user names with a colon, for which this fails, cannot come
    out of FromConfig. *)
Theorem FromConfig_mode_accepts_own_header (getenv : string -> string)
    (mode mode' : option AuthMode) (authConfig : string) (m : AuthMode)
    (req : Request) :
  FromConfig getenv mode authConfig = (Some m, None, mode') ->
  StdEncoding_EncodeToString (credentials m) <> "" ->
  all_base64_class (StdEncoding_EncodeToString (credentials m)) = true ->
  StdEncoding_Decode (StdEncoding_EncodeToString (credentials m)) = inr (credentials m) ->
  AuthMode_IsAuthorized StdEncoding_Decode m
    (AuthMode_AddAuthHeader StdEncoding_EncodeToString m req) = true.
Proof.
  intros Hcfg Hne Hclass Hdec.
  assert (match m with
          | ModeUserPass up => has_colon (Username up) = false
          | ModeDevAuth _ => True
          end) as Hm.
  { revert Hcfg. unfold FromConfig.
    pose proof (Split_colon_pieces authConfig) as Hpieces.
    destruct (Split_colon authConfig) as [|authType pieces]; [done|].
    destruct (negb _); [by intros [= <- _]|].
    destruct (String.eqb authType "userpass"); [|done].
    destruct pieces as [|u [|p [|? ?]]]; try done.
    intros [= <- _]. simpl.
    inversion_clear Hpieces as [|? ? _ Hps]. by inversion_clear Hps. }
  destruct m as [up|da]; simpl in *.
  - destruct (basicAuth_SetBasicAuth StdEncoding_Decode StdEncoding_EncodeToString
                req (Username up) (UserPass_Password up) Hne Hclass Hdec)
      as (user & pass & Hcut & Hb).
    unfold Auth.UserPass_IsAuthorized, AuthGate.UserPass_AddAuthHeader. rewrite Hb.
    rewrite (cut_colon_append _ _ Hm) in Hcut. injection Hcut as <- <-.
    by rewrite !String.eqb_refl.
  - destruct (basicAuth_SetBasicAuth StdEncoding_Decode StdEncoding_EncodeToString
                req "" (Password da) Hne Hclass Hdec)
      as (user & pass & Hcut & Hb).
    unfold Auth.DevAuth_IsAuthorized, AuthGate.DevAuth_AddAuthHeader. rewrite Hb.
    simpl in Hcut. injection Hcut as <- <-. apply String.eqb_refl.
Qed.

(** While the package variable is nil, as it is before FromConfig has
    succeeded once, and still is after a FromConfig that failed,
    IsAuthorized and the function RequireAuth returns panic. *)
Theorem IsAuthorized_panics_after_failed_FromConfig (getenv : string -> string)
    (r mode' : option AuthMode) (authConfig : string) (e : ConfigError)
    (Quote : string -> string)
    (handler : ResponseWriter -> Request -> ResponseWriter)
    (conn : ResponseWriter) (req : Request) :
  FromConfig getenv None authConfig = (r, Some e, mode') ->
  IsAuthorized StdEncoding_Decode mode' req = Panics /\
  RequireAuth StdEncoding_Decode Quote handler mode' conn req = Panics.
Proof.
  unfold FromConfig.
  destruct (Split_colon authConfig) as [|authType pieces]; [by intros [= <- <- <-]|].
  destruct (negb _); [done|].
  destruct (String.eqb authType "userpass").
  - destruct pieces as [|u [|p [|? ?]]]; try done; by intros [= <- <- <-].
  - by intros [= <- <- <-].
Qed.

End Agreement.


(** ** The theorems on concrete requests and configurations *)

Lemma IsAuthorized_implies_TriedAuthorization_witness :
  TriedAuthorization (Fixture.request "Basic OnNlY3JldA==") = true /\
  Header_Get (Header (Fixture.request "Basic OnNlY3JldA==")) "Authorization" <> "".
Proof.
  apply (IsAuthorized_implies_TriedAuthorization Fixture.StdEncoding_Decode
           (ModeDevAuth (mkDevAuth "secret")) (Fixture.request "Basic OnNlY3JldA==")).
  reflexivity.
Defined.

Lemma UserPass_IsAuthorized_iff_credentials_witness :
  Auth.UserPass_IsAuthorized Fixture.StdEncoding_Decode (mkUserPass "joe" "ponies")
    (Fixture.request "Basic am9lOnBvbmllcw==") = true <->
  "joe" = Username (mkUserPass "joe" "ponies") /\
  "ponies" = UserPass_Password (mkUserPass "joe" "ponies").
Proof.
  apply (UserPass_IsAuthorized_iff_credentials Fixture.StdEncoding_Decode
           (mkUserPass "joe" "ponies") (Fixture.request "Basic am9lOnBvbmllcw==")
           "am9lOnBvbmllcw==" "joe" "ponies");
    (reflexivity || discriminate).
Defined.

Lemma UserPass_accepts_implies_DevAuth_accepts_witness :
  Auth.DevAuth_IsAuthorized Fixture.StdEncoding_Decode
    {| Password := UserPass_Password (mkUserPass "joe" "ponies") |}
    (Fixture.request "Basic am9lOnBvbmllcw==") = true.
Proof.
  apply (UserPass_accepts_implies_DevAuth_accepts Fixture.StdEncoding_Decode
           (mkUserPass "joe" "ponies") (Fixture.request "Basic am9lOnBvbmllcw==")).
  reflexivity.
Defined.

Lemma RequireAuth_without_header_witness :
  AuthGate.RequireAuth Fixture.StdEncoding_Decode Fixture.Quote
    (fun conn _ => (conn ++ [Write "listing"])%list)
    (Some (ModeDevAuth (mkDevAuth "secret"))) [] (mkRequest ∅) =
  Returns ([] ++
    [HeaderSet "WWW-Authenticate"
       ("Basic realm=" ++ Fixture.Quote ("Any username, password is: " ++ "secret"));
     WriteHeader 401;
     Write "<h1>Unauthorized</h1>"])%list.
Proof.
  apply (RequireAuth_without_header Fixture.StdEncoding_Decode Fixture.Quote
           (fun conn _ => (conn ++ [Write "listing"])%list)
           (ModeDevAuth (mkDevAuth "secret")) [] (mkRequest ∅)).
  reflexivity.
Defined.

Lemma DevAuth_AddAuthHeader_authorizes_witness :
  Auth.DevAuth_IsAuthorized Fixture.StdEncoding_Decode (mkDevAuth "se:cret")
    (AuthGate.DevAuth_AddAuthHeader Fixture.b64_encode (mkDevAuth "se:cret")
       (mkRequest ∅)) = true.
Proof.
  apply (DevAuth_AddAuthHeader_authorizes Fixture.StdEncoding_Decode Fixture.b64_encode
           (mkDevAuth "se:cret") (mkRequest ∅));
    (reflexivity || discriminate).
Defined.

Lemma UserPass_AddAuthHeader_authorizes_iff_witness :
  Auth.UserPass_IsAuthorized Fixture.StdEncoding_Decode (mkUserPass "jo:e" "ponies")
    (AuthGate.UserPass_AddAuthHeader Fixture.b64_encode (mkUserPass "jo:e" "ponies")
       (mkRequest ∅)) = true <->
  has_colon (Username (mkUserPass "jo:e" "ponies")) = false.
Proof.
  apply (UserPass_AddAuthHeader_authorizes_iff Fixture.StdEncoding_Decode
           Fixture.b64_encode (mkUserPass "jo:e" "ponies") (mkRequest ∅));
    (reflexivity || discriminate).
Defined.

Lemma FromConfig_advertised_password_wins_witness :
  FromConfig (Fixture.getenv [("CAMLI_ADVERTISED_PASSWORD", "dev")]) None "nonsense" =
    (Some (ModeDevAuth {| Password := "dev" |}), None,
     Some (ModeDevAuth {| Password := "dev" |})).
Proof.
  apply (FromConfig_advertised_password_wins
           (Fixture.getenv [("CAMLI_ADVERTISED_PASSWORD", "dev")]) None "nonsense" "dev");
    (reflexivity || discriminate).
Defined.

Lemma FromConfig_userpass_iff_witness :
  FromConfig (Fixture.getenv []) None "userpass:joe:ponies" =
    (Some (ModeUserPass (mkUserPass "joe" "ponies")), None,
     Some (ModeUserPass (mkUserPass "joe" "ponies"))) <->
  exists u p,
    has_colon u = false /\ has_colon p = false /\
    "userpass:joe:ponies" = "userpass:" ++ u ++ ":" ++ p /\
    ModeUserPass (mkUserPass "joe" "ponies") =
      ModeUserPass {| Username := u; UserPass_Password := p |} /\
    Some (ModeUserPass (mkUserPass "joe" "ponies")) =
      Some (ModeUserPass (mkUserPass "joe" "ponies")).
Proof.
  apply (FromConfig_userpass_iff (Fixture.getenv []) None
           (Some (ModeUserPass (mkUserPass "joe" "ponies")))
           "userpass:joe:ponies" (ModeUserPass (mkUserPass "joe" "ponies"))).
  reflexivity.
Defined.

Lemma FromConfig_failure_witness :
  (None : option AuthMode) = None /\
  Some (ModeDevAuth (mkDevAuth "old")) = Some (ModeDevAuth (mkDevAuth "old")) /\
  Fixture.getenv [] "CAMLI_ADVERTISED_PASSWORD" = "" /\
  (ErrWrongUserpass = ErrWrongUserpass \/
   exists authType, ErrWrongUserpass = ErrUnknownAuthType authType /\
                    authType <> "userpass").
Proof.
  apply (FromConfig_failure (Fixture.getenv []) (Some (ModeDevAuth (mkDevAuth "old")))
           (Some (ModeDevAuth (mkDevAuth "old"))) None
           "userpass:joe:po:nies" ErrWrongUserpass).
  reflexivity.
Defined.

Lemma FromConfig_mode_accepts_own_header_witness :
  AuthGate.AuthMode_IsAuthorized Fixture.StdEncoding_Decode
    (ModeUserPass (mkUserPass "joe" "ponies"))
    (AuthGate.AuthMode_AddAuthHeader Fixture.b64_encode
       (ModeUserPass (mkUserPass "joe" "ponies")) (mkRequest ∅)) = true.
Proof.
  apply (FromConfig_mode_accepts_own_header Fixture.StdEncoding_Decode Fixture.b64_encode
           (Fixture.getenv []) None (Some (ModeUserPass (mkUserPass "joe" "ponies")))
           "userpass:joe:ponies" (ModeUserPass (mkUserPass "joe" "ponies"))
           (mkRequest ∅));
    (reflexivity || discriminate).
Defined.

Lemma IsAuthorized_panics_after_failed_FromConfig_witness :
  AuthGate.IsAuthorized Fixture.StdEncoding_Decode None
    (Fixture.request "Basic OnNlY3JldA==") = Panics /\
  AuthGate.RequireAuth Fixture.StdEncoding_Decode Fixture.Quote
    (fun conn _ => conn) None [] (Fixture.request "Basic OnNlY3JldA==") = Panics.
Proof.
  apply (IsAuthorized_panics_after_failed_FromConfig Fixture.StdEncoding_Decode
           (Fixture.getenv []) None None "" (ErrUnknownAuthType "")
           Fixture.Quote (fun conn _ => conn) []
           (Fixture.request "Basic OnNlY3JldA==")).
  reflexivity.
Defined.

End AuthGateTheory.
